(** * Face-analysis backend: job handling and aggregation

    A shallow embedding of the analysis backend:
    - [backend/services/pipeline_service.py]  (PipelineService)
    - [image_pipeline/image_pipeline.py]      (ImagePipeline)
    - [backend/routers/upload.py]             (upload_images)
    - [backend/routers/analyze.py]            (start_analysis,
                                               run_analysis_background,
                                               get_result)

    Python dictionaries are finite maps ([gmap string _]), exceptions are
    the [Raise] constructor of [result], the database and the queue of
    background tasks are explicit state. *)

From Stdlib Require Import ZArith QArith Ascii.
From stdpp Require Import base option list gmap strings fin_maps pretty.
From stdpp Require Import sorting.

Local Open Scope string_scope.

(** ** Exceptions *)

(** A Python call either returns a value or raises; [Raise] carries
    [str(e)]. *)
Inductive result (A : Type) : Type :=
| Ok (a : A)
| Raise (msg : string).
Arguments Ok {A} a.
Arguments Raise {A} msg.

(** Sequencing: the first exception raised aborts what follows.
    Written [x ← r; k] below. *)
#[global] Instance result_bind : MBind result := λ A B k r,
  match r with
  | Ok a => k a
  | Raise e => Raise e
  end.

(** ** Strings *)

(** [str.lower()].  Strings are byte sequences (UTF-8) and only the
    ASCII letters A-Z are mapped.  Python also lowers letters outside
    ASCII; the only one that lowers to a plain ASCII letter is the Kelvin
    sign, to "k".  The lowered string is used only to test membership in
    the keys "male" and "female" and in [ALLOWED_EXTENSIONS], none of
    which has a "k", so both readings of [lower] give the same
    answers. *)
Definition lower_ascii (c : Ascii.ascii) : Ascii.ascii :=
  let n := Ascii.N_of_ascii c in
  if ((65 <=? n) && (n <=? 90))%N then Ascii.ascii_of_N (n + 32) else c.

Fixpoint lower (s : string) : string :=
  match s with
  | EmptyString => EmptyString
  | String c s' => String (lower_ascii c) (lower s')
  end.

(** ** Face records and the aggregated result *)

(** One element of the list returned by [ImagePipeline.process_image]:
    [{"bbox": ..., "confidence": ..., "gender": ..., "age_group": ...}]. *)
Record Face := mkFace {
  bbox : Z * Z * Z * Z;
  confidence : Q;
  gender : string;
  age_group : string;
}.

(** The dictionary [aggregated] of [PipelineService.analyze_images];
    [gender_counts] and [age_group_counts] are its entries "gender" and
    "age_group". *)
Record Aggregated := mkAggregated {
  total_faces : nat;
  gender_counts : gmap string nat;
  age_group_counts : gmap string nat;
}.

(** [{"total_faces": 0, "gender": {"male": 0, "female": 0},
      "age_group": {"10s": 0, "20s": 0, "30s": 0, "40_plus": 0}}] *)
Definition new_aggregated : Aggregated :=
  {| total_faces := 0;
     gender_counts := <["male" := 0]> (<["female" := 0]> ∅);
     age_group_counts :=
       <["10s" := 0]> (<["20s" := 0]> (<["30s" := 0]> (<["40_plus" := 0]> ∅))) |}.

(** [if k in d: d[k] += 1] *)
Definition incr_if_present (k : string) (d : gmap string nat) : gmap string nat :=
  match d !! k with
  | Some n => <[k := n + 1]> d
  | None => d
  end.

(** Body of [for face in face_results] in [analyze_images]. *)
Definition count_face (aggregated : Aggregated) (face : Face) : Aggregated :=
  {| total_faces := total_faces aggregated + 1;
     gender_counts :=
       incr_if_present (lower (gender face)) (gender_counts aggregated);
     age_group_counts :=
       incr_if_present (age_group face) (age_group_counts aggregated) |}.

(** The inner loop over the faces of one image. *)
Definition fold_faces (aggregated : Aggregated) (face_results : list Face)
    : Aggregated :=
  fold_left count_face face_results aggregated.

(** The faces of a sequence of images, one batch per image. *)
Definition fold_batches (aggregated : Aggregated) (batches : list (list Face))
    : Aggregated :=
  fold_left fold_faces batches aggregated.

(** Reading a count; a key that is absent reads as [0]. *)
Definition count_of (d : gmap string nat) (k : string) : nat :=
  default 0 (d !! k).

Definition gender_sum (a : Aggregated) : nat :=
  count_of (gender_counts a) "male" + count_of (gender_counts a) "female".

Definition age_group_sum (a : Aggregated) : nat :=
  count_of (age_group_counts a) "10s" + count_of (age_group_counts a) "20s"
  + count_of (age_group_counts a) "30s" + count_of (age_group_counts a) "40_plus".

(** A label is recognized when it is a key of the matching dictionary. *)
Definition gender_keys : list string := ["male"; "female"].
Definition age_group_keys : list string := ["10s"; "20s"; "30s"; "40_plus"].

Definition gender_recognized (face : Face) : bool :=
  bool_decide (lower (gender face) ∈ gender_keys).

Definition age_recognized (face : Face) : bool :=
  bool_decide (age_group face ∈ age_group_keys).

Definition indicator (b : bool) : nat := if b then 1 else 0.

(** The key sets of the two dictionaries never change. *)
Definition well_keyed (a : Aggregated) : Prop :=
  (∀ k, is_Some (gender_counts a !! k) ↔ k ∈ gender_keys) ∧
  (∀ k, is_Some (age_group_counts a !! k) ↔ k ∈ age_group_keys).

(** ** image_pipeline/image_pipeline.py *)

(** A PIL image, as far as the pipeline looks at it: its size.
    [pixels] stands for the content handed to the classifiers. *)
Record Image := mkImage {
  width : Z;
  height : Z;
  pixels : string;
}.

(** One element of the list returned by [detect_faces]:
    [{"bbox": [int(x1), int(y1), int(x2), int(y2)], "confidence": conf}]. *)
Record Detection := mkDetection {
  det_bbox : Z * Z * Z * Z;
  det_confidence : Q;
}.

(** An [ImagePipeline] instance after [_load_models]: the three loaded
    models, opaque, each of which may raise.
    - [detect_faces]: the YOLO detector with the conversion of its boxes;
    - [classify_gender]: the label [id2label[argmax]] of the gender model;
    - [age_id2label]: the label [id2label[argmax]] of the age model,
      before [_map_age_to_group]. *)
Record ImagePipeline := mkImagePipeline {
  detect_faces : string → result (list Detection);
  classify_gender : Image → result string;
  age_id2label : Image → result string;
}.

(** What lies outside the program: the file system, PIL, and the
    constructor of the pipeline, which loads the models and may raise. *)
Record World := mkWorld {
  path_exists : string → bool;                      (* os.path.exists *)
  Image_open : string → result Image;               (* Image.open(p).convert('RGB') *)
  Image_crop : Image → Z * Z * Z * Z → result Image;  (* image.crop((x1, y1, x2, y2)) *)
  ImagePipeline_new : string → result ImagePipeline;  (* ImagePipeline(device=...) *)
  save_upload : string → string → result ();        (* open(path, "wb"); copyfileobj *)
  UPLOAD_DIR : string;                              (* config.UPLOAD_DIR *)
}.

Definition age_mapping : gmap string string :=
  list_to_map
    [("0-2", "10s"); ("3-9", "10s"); ("10-19", "10s");
     ("20-29", "20s"); ("30-39", "30s");
     ("40-49", "40_plus"); ("50-59", "40_plus"); ("60-69", "40_plus");
     ("more than 70", "40_plus")].

(** [age_mapping.get(age_label, "40_plus")] *)
Definition _map_age_to_group (age_label : string) : string :=
  default "40_plus" (age_mapping !! age_label).

Definition classify_age (p : ImagePipeline) (face_image : Image) : result string :=
  age_label ← age_id2label p face_image;
  Ok (_map_age_to_group age_label).

(** [face_crop.width < 10 or face_crop.height < 10] *)
Definition too_small (face_crop : Image) : bool :=
  (width face_crop <? 10)%Z || (height face_crop <? 10)%Z.

(** The loop [for face in faces] of [process_image]; the list built is
    [results].  The counter [skipped_small] only feeds a debug print. *)
Fixpoint classify_faces (w : World) (p : ImagePipeline) (original_image : Image)
    (faces : list Detection) : result (list Face) :=
  match faces with
  | [] => Ok []
  | face :: faces' =>
    face_crop ← Image_crop w original_image (det_bbox face);
    if too_small face_crop then classify_faces w p original_image faces'
    else
      gender ← classify_gender p face_crop;
      age_group ← classify_age p face_crop;
      results ← classify_faces w p original_image faces';
      Ok ({| bbox := det_bbox face; confidence := det_confidence face;
             gender := gender; age_group := age_group |} :: results)
  end.

(** A detection is kept when its crop succeeds and is at least 10 by 10. *)
Definition crop_large_enough (w : World) (original_image : Image)
    (face : Detection) : bool :=
  match Image_crop w original_image (det_bbox face) with
  | Ok face_crop => negb (too_small face_crop)
  | Raise _ => false
  end.

Definition process_image (w : World) (p : ImagePipeline) (image_path : string)
    : result (list Face) :=
  faces ← detect_faces p image_path;
  match faces with
  | [] => Ok []
  | _ =>
    original_image ← Image_open w image_path;
    classify_faces w p original_image faces
  end.

(** ** backend/services/pipeline_service.py *)

Record PipelineService := mkPipelineService {
  device : string;
  _pipeline : option ImagePipeline;
}.

(** The property [pipeline]: the instance is built on first use and kept;
    when the constructor raises, [_pipeline] stays [None]. *)
Definition pipeline (w : World) (self : PipelineService)
    : result ImagePipeline * PipelineService :=
  match _pipeline self with
  | Some p => (Ok p, self)
  | None =>
    match ImagePipeline_new w (device self) with
    | Ok p => (Ok p, {| device := device self; _pipeline := Some p |})
    | Raise e => (Raise e, self)
    end
  end.

(** The state of the loop of [analyze_images]: the dictionary, the
    service, and the paths on which [process_image] was called so far
    (kept to tell whether the vision engine ran). *)
Record Loop := mkLoop {
  aggregated : Aggregated;
  service : PipelineService;
  calls : list string;
}.

(** One turn of [for img_path in image_paths].  Both [self.pipeline] and
    [process_image] are evaluated inside the [try], so an exception of
    either is caught by [except Exception], printed, and the loop goes
    on. *)
Definition analyze_step (w : World) (l : Loop) (img_path : string) : Loop :=
  if negb (path_exists w img_path) then l
  else
    match pipeline w (service l) with
    | (Raise e, self) =>
        {| aggregated := aggregated l; service := self; calls := calls l |}
    | (Ok p, self) =>
        match process_image w p img_path with
        | Raise e =>
            {| aggregated := aggregated l; service := self;
               calls := calls l ++ [img_path] |}
        | Ok face_results =>
            {| aggregated := fold_faces (aggregated l) face_results;
               service := self;
               calls := calls l ++ [img_path] |}
        end
    end.

Definition analyze_images (w : World) (self : PipelineService)
    (image_paths : list string) : Loop :=
  fold_left (analyze_step w) image_paths
    {| aggregated := new_aggregated; service := self; calls := [] |}.

(** What [self.pipeline] evaluates to, whatever the state of the cache. *)
Definition engine (w : World) (self : PipelineService) : result ImagePipeline :=
  match _pipeline self with
  | Some p => Ok p
  | None => ImagePipeline_new w (device self)
  end.

(** The faces an image contributes: [None] when it is skipped, that is
    when it is missing, when the engine cannot be used, or when
    processing it raises. *)
Definition image_batch (w : World) (self : PipelineService) (img_path : string)
    : option (list Face) :=
  if path_exists w img_path then
    match engine w self with
    | Ok p =>
      match process_image w p img_path with
      | Ok face_results => Some face_results
      | Raise _ => None
      end
    | Raise _ => None
    end
  else None.

(** ** backend/database.py *)

(** The values written to the column [status]. *)
Inductive Status := pending | processing | completed | failed.

#[global] Instance Status_eq_dec : EqDecision Status.
Proof. solve_decision. Defined.

(** The text of the column [json_result]: ["{}"] at upload,
    [json.dumps(result)] on success, [json.dumps({"error": str(e)})] on
    failure. *)
Inductive JsonText :=
| JEmpty
| JAggregated (result : Aggregated)
| JError (error : string).

(** A row of the table [analyses] (without its surrogate key [id] and
    its chat logs).  [image_paths] is nullable. *)
Record Analysis := mkAnalysis {
  analysis_id : string;
  json_result : JsonText;
  image_paths : option (list string);
  status : Status;
  created_at : Z;
  updated_at : Z;
}.

(** [UPDATE analyses SET json_result, status, updated_at]: the other
    columns of the row stay. *)
Definition update_row (analysis : Analysis) (r : JsonText) (s : Status) (t : Z)
    : Analysis :=
  {| analysis_id := analysis_id analysis;
     json_result := r;
     image_paths := image_paths analysis;
     status := s;
     created_at := created_at analysis;
     updated_at := t |}.

(** The server: the table indexed by its unique column [analysis_id],
    the background tasks added and not yet run, the module-level
    singleton [_pipeline_service], and the images the vision engine was
    run on. *)
Record State := mkState {
  db : gmap string Analysis;
  background_tasks : list (string * list string);
  _pipeline_service : option PipelineService;
  vision_calls : list string;
}.

(** A handler returns a body or raises [HTTPException]. *)
Inductive Http (A : Type) : Type :=
| Return (body : A)
| HTTPException (status_code : nat) (detail : string).
Arguments Return {A} body.
Arguments HTTPException {A} status_code detail.

(** ** backend/routers/upload.py *)

Definition ALLOWED_EXTENSIONS : list string :=
  [".jpg"; ".jpeg"; ".png"; ".bmp"; ".webp"].

(** [s.split("/")] *)
Fixpoint split_slash (s : string) : list string :=
  match s with
  | EmptyString => [EmptyString]
  | String c s' =>
    if Ascii.eqb c "/"%char then EmptyString :: split_slash s'
    else
      match split_slash s' with
      | part :: parts => String c part :: parts
      | [] => [String c EmptyString]
      end
  end.

(** [Path(p).name] on a POSIX path: the last component that is neither
    empty nor ["."]. *)
Definition path_name (p : string) : string :=
  List.last
    (List.filter (λ x, negb (String.eqb x "" || String.eqb x ".")) (split_slash p))
    "".

(** [name.rfind('.')], counted from [i]. *)
Fixpoint rfind_dot (name : string) (i : nat) : option nat :=
  match name with
  | EmptyString => None
  | String c name' =>
    match rfind_dot name' (S i) with
    | Some j => Some j
    | None => if Ascii.eqb c "."%char then Some i else None
    end
  end.

(** [Path(p).suffix]: [name[i:]] when [0 < i < len(name) - 1], else [""]. *)
Definition path_suffix (p : string) : string :=
  let name := path_name p in
  match rfind_dot name 0 with
  | Some i =>
    if ((0 <? i) && (i <? String.length name - 1))%nat
    then String.substring i (String.length name - i) name
    else ""
  | None => ""
  end.

Definition validate_image (filename : string) : bool :=
  let ext := lower (path_suffix filename) in
  bool_decide (ext ∈ ALLOWED_EXTENSIONS).

Record UploadFile := mkUploadFile {
  filename : string;
  file : string;
}.

(** [UploadResponse]; its [message] is a rendering of the two fields. *)
Record UploadResponse := mkUploadResponse {
  upload_analysis_id : string;
  image_count : nat;
}.

(** [str(dir / name)]: an absolute [name] replaces [dir]. *)
Definition path_join (dir name : string) : string :=
  match name with
  | String "/" _ => name
  | _ => dir ++ "/" ++ name
  end.

(** The loop that stores the files and collects [saved_paths]. *)
Fixpoint save_files (w : World) (upload_path : string) (files : list UploadFile)
    : result (list string) :=
  match files with
  | [] => Ok []
  | f :: files' =>
    let file_path := path_join upload_path (filename f) in
    _ ← save_upload w file_path (file f);
    saved_paths ← save_files w upload_path files';
    Ok (file_path :: saved_paths)
  end.

(** [upload_images].  [uuid4] is the value of [str(uuid.uuid4())] and
    [now] the clock at the insertion.  Creating the upload directory is
    taken to succeed; storing a file may raise.  The column
    [analysis_id] is unique: inserting a second row with the same value
    raises at [db.commit()].  The text after "Allowed: " in the second
    detail is a rendering of the set and is left out. *)
Definition upload_images (w : World) (uuid4 : string) (now : Z)
    (files : list UploadFile) (st : State) : Http UploadResponse * State :=
  match files with
  | [] => (HTTPException 400 "No files provided", st)
  | _ =>
    match List.find (λ f, negb (validate_image (filename f))) files with
    | Some f =>
        (HTTPException 400 ("Invalid file type: " ++ filename f ++ ". Allowed: "), st)
    | None =>
      let analysis_id := uuid4 in
      let upload_path := path_join (UPLOAD_DIR w) analysis_id in
      match save_files w upload_path files with
      | Raise e => (HTTPException 500 ("Upload failed: " ++ e), st)
      | Ok saved_paths =>
        match db st !! analysis_id with
        | Some _ =>
            (HTTPException 500
               "Upload failed: UNIQUE constraint failed: analyses.analysis_id", st)
        | None =>
          let analysis :=
            {| analysis_id := analysis_id;
               json_result := JEmpty;
               image_paths := Some saved_paths;
               status := pending;
               created_at := now;
               updated_at := now |} in
          (Return {| upload_analysis_id := analysis_id;
                     image_count := length saved_paths |},
           {| db := <[analysis_id := analysis]> (db st);
              background_tasks := background_tasks st;
              _pipeline_service := _pipeline_service st;
              vision_calls := vision_calls st |})
        end
      end
    end
  end.

(** ** backend/routers/analyze.py *)

(** The dictionary returned by [start_analysis]. *)
Record StartResponse := mkStartResponse {
  start_analysis_id : string;
  start_status : Status;
  message : string;
}.

(** [start_analysis]: the row is read and tested, a task is added; the
    row itself is not written here. *)
Definition start_analysis (analysis_id : string) (st : State)
    : Http StartResponse * State :=
  match db st !! analysis_id with
  | None => (HTTPException 404 "Analysis not found. Upload images first.", st)
  | Some analysis =>
    if decide (status analysis = processing) then
      (HTTPException 400 "Analysis is already in progress", st)
    else if decide (status analysis = completed) then
      (Return {| start_analysis_id := analysis_id;
                 start_status := completed;
                 message := "Analysis already completed. Use /api/result/{analysis_id} to get results." |},
       st)
    else
      let image_paths := default [] (image_paths analysis) in
      match image_paths with
      | [] => (HTTPException 400 "No images found for this analysis", st)
      | _ =>
        (Return {| start_analysis_id := analysis_id;
                   start_status := processing;
                   message := "Analysis started for " ++ pretty (length image_paths)
                     ++ " images. Poll /api/result/" ++ analysis_id ++ " for results." |},
         {| db := db st;
            background_tasks := background_tasks st ++ [(analysis_id, image_paths)];
            _pipeline_service := _pipeline_service st;
            vision_calls := vision_calls st |})
      end
  end.

(** [get_pipeline_service]: the singleton is created on first use. *)
Definition get_pipeline_service (st : State) : PipelineService :=
  match _pipeline_service st with
  | Some s => s
  | None => {| device := "cpu"; _pipeline := None |}
  end.

(** The handler [except Exception as e] of [run_analysis_background]:
    the row is marked failed and keeps [str(e)]. *)
Definition mark_failed (now : Z) (analysis_id : string) (e : string) (st : State)
    : State :=
  match db st !! analysis_id with
  | None => st
  | Some analysis =>
    {| db := <[analysis_id := update_row analysis (JError e) failed now]> (db st);
       background_tasks := background_tasks st;
       _pipeline_service := _pipeline_service st;
       vision_calls := vision_calls st |}
  end.

(** First part of [run_analysis_background], up to the first
    [db.commit()]: the row is marked as processing.  The column
    [updated_at] is refreshed by the database when the row changes
    ([onupdate]). *)
Definition update_status_processing (now : Z) (analysis_id : string) (st : State)
    : State :=
  match db st !! analysis_id with
  | None => st
  | Some analysis =>
    {| db := <[analysis_id :=
                update_row analysis (json_result analysis) processing
                  (if decide (status analysis = processing)
                   then updated_at analysis else now)]> (db st);
       background_tasks := background_tasks st;
       _pipeline_service := _pipeline_service st;
       vision_calls := vision_calls st |}
  end.

(** Second part of [run_analysis_background]: the pipeline runs and the
    row is updated with the results.  Inside the [try] only the database
    layer could raise, [analyze_images] returning a dictionary on every
    input; the database is taken to work, so [mark_failed] is not
    reached from here. *)
Definition run_pipeline_update_results (w : World) (now : Z)
    (analysis_id : string) (image_paths : list string) (st : State) : State :=
  match db st !! analysis_id with
  | None => st
  | Some analysis =>
    let pipeline_service := get_pipeline_service st in
    let l := analyze_images w pipeline_service image_paths in
    {| db := <[analysis_id :=
                update_row analysis (JAggregated (aggregated l)) completed now]>
             (db st);
       background_tasks := background_tasks st;
       _pipeline_service := Some (service l);
       vision_calls := vision_calls st ++ calls l |}
  end.

(** [run_analysis_background], run at time [now]: nothing happens when
    the row is absent. *)
Definition run_analysis_background (w : World) (now : Z)
    (analysis_id : string) (image_paths : list string) (st : State) : State :=
  match db st !! analysis_id with
  | None => st
  | Some _ =>
    run_pipeline_update_results w now analysis_id image_paths
      (update_status_processing now analysis_id st)
  end.

(** The server takes the first task of the queue and runs it. *)
Definition run_next_task (w : World) (now : Z) (st : State) : State :=
  match background_tasks st with
  | [] => st
  | (analysis_id, image_paths) :: tasks =>
    run_analysis_background w now analysis_id image_paths
      {| db := db st;
         background_tasks := tasks;
         _pipeline_service := _pipeline_service st;
         vision_calls := vision_calls st |}
  end.

(** [AnalysisResponse] of [get_result], without its [message]. *)
Record AnalysisResponse := mkAnalysisResponse {
  response_analysis_id : string;
  response_status : Status;
  response_result : option Aggregated;
  response_created_at : Z;
}.

(** [get_result]: a result is given only for a completed row; keys
    missing from the stored dictionary read as zero counts. *)
Definition get_result (analysis_id : string) (st : State) : Http AnalysisResponse :=
  match db st !! analysis_id with
  | None => HTTPException 404 "Analysis not found"
  | Some analysis =>
    let result :=
      if decide (status analysis = completed) then
        match json_result analysis with
        | JAggregated a => Some a
        | JEmpty | JError _ => Some new_aggregated
        end
      else None in
    Return {| response_analysis_id := analysis_id;
              response_status := status analysis;
              response_result := result;
              response_created_at := created_at analysis |}
  end.

(** ** Scenarios *)

(** Concrete worlds on which the definitions above are run. *)
Module Scenario.

(** PIL: the crop of a box has the size of the box. *)
Definition crop (img : Image) (box : Z * Z * Z * Z) : result Image :=
  let '(x1, y1, x2, y2) := box in
  Ok {| width := x2 - x1; height := y2 - y1; pixels := pixels img |}.

(** A detector that finds two faces in "a.jpg", the second one 5
    pixels wide, one face in "b.jpg", fails on "broken.jpg" and finds
    nothing elsewhere. *)
Definition detector (image_path : string) : result (list Detection) :=
  if String.eqb image_path "a.jpg" then
    Ok [ {| det_bbox := (0, 0, 50, 60)%Z; det_confidence := 9 # 10 |};
         {| det_bbox := (100, 100, 105, 140)%Z; det_confidence := 1 # 2 |} ]
  else if String.eqb image_path "b.jpg" then
    Ok [ {| det_bbox := (10, 10, 40, 40)%Z; det_confidence := 4 # 5 |} ]
  else if String.eqb image_path "broken.jpg" then
    Raise "cannot identify image file"
  else Ok [].

Definition models : ImagePipeline :=
  {| detect_faces := detector;
     classify_gender := λ img, Ok (if (width img <? 40)%Z then "female" else "Male");
     age_id2label := λ img, Ok (if (width img <? 40)%Z then "more than 70" else "20-29") |}.

(** Every file is there except "missing.jpg". *)
Definition files_on_disk (p : string) : bool := negb (String.eqb p "missing.jpg").

(** A world where the models load. *)
Definition world : World :=
  {| path_exists := files_on_disk;
     Image_open := λ p, Ok {| width := 640; height := 480; pixels := p |};
     Image_crop := crop;
     ImagePipeline_new := λ _, Ok models;
     save_upload := λ _ _, Ok ();
     UPLOAD_DIR := "/srv/storage/uploads" |}.

(** A world where loading the models raises. *)
Definition world_no_engine : World :=
  {| path_exists := files_on_disk;
     Image_open := λ p, Ok {| width := 640; height := 480; pixels := p |};
     Image_crop := crop;
     ImagePipeline_new := λ _, Raise "model download failed";
     save_upload := λ _ _, Ok ();
     UPLOAD_DIR := "/srv/storage/uploads" |}.

(** A world where every image makes the detector raise. *)
Definition world_all_raise : World :=
  {| path_exists := files_on_disk;
     Image_open := λ p, Ok {| width := 640; height := 480; pixels := p |};
     Image_crop := crop;
     ImagePipeline_new := λ _,
       Ok {| detect_faces := λ _, Raise "inference error";
             classify_gender := classify_gender models;
             age_id2label := age_id2label models |};
     save_upload := λ _ _, Ok ();
     UPLOAD_DIR := "/srv/storage/uploads" |}.

Definition empty_state : State :=
  {| db := ∅; background_tasks := []; _pipeline_service := None;
     vision_calls := [] |}.

Definition job (s : Status) (r : JsonText) : Analysis :=
  {| analysis_id := "job-1";
     json_result := r;
     image_paths := Some ["a.jpg"; "b.jpg"];
     status := s;
     created_at := 100;
     updated_at := 100 |}.

(** A server holding the single job "job-1". *)
Definition state_with (s : Status) (r : JsonText) : State :=
  {| db := {["job-1" := job s r]}; background_tasks := [];
     _pipeline_service := None; vision_calls := [] |}.

Definition face (g a : string) : Face :=
  {| bbox := (0, 0, 20, 20)%Z; confidence := 1; gender := g; age_group := a |}.

End Scenario.

(** ** More of backend/routers/upload.py *)



(** ** More of backend/routers/analyze.py *)

(** The columns [analysis_id] and [image_paths] of a row, for use where
    these names are taken by the arguments of a handler. *)
Definition row_id (a : Analysis) : string := analysis_id a.
Definition row_image_paths (a : Analysis) : option (list string) := image_paths a.


(** The text held by the column [status]. *)
Definition status_name (s : Status) : string :=
  match s with
  | pending => "pending"
  | processing => "processing"
  | completed => "completed"
  | failed => "failed"
  end.

(** [get_raw_result]: [json.loads(analysis.json_result)] of a completed
    row. *)
Definition get_raw_result (analysis_id : string) (st : State) : Http JsonText :=
  match db st !! analysis_id with
  | None => HTTPException 404 "Analysis not found"
  | Some analysis =>
    if decide (status analysis ≠ completed) then
      HTTPException 400
        ("Analysis not completed. Status: " ++ status_name (status analysis))
    else Return (json_result analysis)
  end.

(** One element of the list built by [list_analyses]. *)
Record AnalysisSummary := mkAnalysisSummary {
  summary_analysis_id : string;
  summary_status : Status;
  summary_image_count : nat;
  summary_total_faces : nat;
  summary_created_at : Z;
}.

(** Body of the loop of [list_analyses].  The stored text is read unless
    it is ["{}"]; [.get("total_faces", 0)] is [0] on the dictionary of a
    failed run, which has the only key "error". *)
Definition list_entry (a : Analysis) : AnalysisSummary :=
  let image_paths := default [] (image_paths a) in
  let json_result :=
    match json_result a with
    | JEmpty => None
    | j => Some j
    end in
  {| summary_analysis_id := analysis_id a;
     summary_status := status a;
     summary_image_count := length image_paths;
     summary_total_faces :=
       match json_result with
       | Some (JAggregated r) => total_faces r
       | Some (JError _) => 0
       | Some JEmpty | None => 0
       end;
     summary_created_at := created_at a |}.

(** [ORDER BY created_at DESC]: [a] may come before [b]. *)
Definition newest_first (a b : Analysis) : Prop :=
  (created_at b ≤ created_at a)%Z.

#[global] Instance newest_first_dec a b : Decision (newest_first a b).
Proof. unfold newest_first. apply _. Defined.

#[global] Instance newest_first_total : Total newest_first.
Proof. intros a b. unfold newest_first. lia. Qed.

#[global] Instance newest_first_trans : Transitive newest_first.
Proof. intros a b c. unfold newest_first. lia. Qed.

(** [LIMIT n] in SQLite: a negative [n] sets no bound. *)
Definition sql_limit {A} (limit : Z) (rows : list A) : list A :=
  if (limit <? 0)%Z then rows else take (Z.to_nat limit) rows.

(** The rows of the table. *)
Definition all_rows (st : State) : list Analysis :=
  (map_to_list (db st)).*2.

(** [db.query(Analysis).order_by(Analysis.created_at.desc()).limit(limit).all()].
    Rows created at the same instant come in an order the database is
    free to choose; here it is the one of the sort. *)
Definition query_newest (limit : Z) (st : State) : list Analysis :=
  sql_limit limit (merge_sort newest_first (all_rows st)).

Definition list_analyses (limit : Z) (st : State) : list AnalysisSummary :=
  list_entry <$> query_newest limit st.

(** Whether the character [c] occurs in [s]. *)
Fixpoint has_char (c : Ascii.ascii) (s : string) : bool :=
  match s with
  | EmptyString => false
  | String c' s' => Ascii.eqb c' c || has_char c s'
  end.

(** ** More of image_pipeline/image_pipeline.py *)

(** The file system as [process_directory] and [run] use it. *)
Record Disk := mkDisk {
  glob_glob : string → list string;             (* glob.glob(pattern) *)
  isdir : string → bool;                        (* os.path.isdir *)
  expanduser : string → string;                 (* os.path.expanduser *)
  dump_result : string → Aggregated → result ();
    (* os.makedirs(os.path.dirname(path)); open(path, 'w'); json.dump *)
}.

Fixpoint ends_with_slash (s : string) : bool :=
  match s with
  | EmptyString => false
  | String c EmptyString => Ascii.eqb c "/"%char
  | String _ s' => ends_with_slash s'
  end.

(** [os.path.join(a, b)] on POSIX. *)
Definition os_path_join (a b : string) : string :=
  match b with
  | String "/" _ => b
  | _ => if String.eqb a "" || ends_with_slash a then a ++ b else a ++ "/" ++ b
  end.

Definition image_patterns : list string :=
  ["*.jpg"; "*.jpeg"; "*.png"; "*.bmp"; "*.webp"].

(** The loop [for face in face_results] of [process_directory]: only
    the two dictionaries are touched, [total_faces] having been raised
    by [len(face_results)] before. *)
Definition count_labels (counts : gmap string nat * gmap string nat) (face : Face)
    : gmap string nat * gmap string nat :=
  (incr_if_present (lower (gender face)) counts.1,
   incr_if_present (age_group face) counts.2).

(** One turn of [for i, img_path in enumerate(image_paths, 1)]; the
    three local variables [total_faces], [gender_counts] and
    [age_group_counts] are kept in one record. *)
Definition process_directory_step (w : World) (p : ImagePipeline)
    (acc : Aggregated) (img_path : string) : Aggregated :=
  match process_image w p img_path with
  | Raise e => acc
  | Ok face_results =>
    let num_faces := length face_results in
    let counts :=
      fold_left count_labels face_results
        (gender_counts acc, age_group_counts acc) in
    {| total_faces := total_faces acc + num_faces;
       gender_counts := counts.1;
       age_group_counts := counts.2 |}
  end.

(** Whether handling the detection [face] raises: its crop raises, or
    the crop is large enough and one of the two classifiers raises on
    it. *)
Definition face_raises (w : World) (p : ImagePipeline) (original_image : Image)
    (face : Detection) : bool :=
  match Image_crop w original_image (det_bbox face) with
  | Raise _ => true
  | Ok face_crop =>
    if too_small face_crop then false
    else
      match classify_gender p face_crop with
      | Raise _ => true
      | Ok _ =>
        match age_id2label p face_crop with
        | Raise _ => true
        | Ok _ => false
        end
      end
  end.

(** The faces an image of a directory contributes: [None] when
    processing it raises. *)
Definition directory_batch (w : World) (p : ImagePipeline) (img_path : string)
    : option (list Face) :=
  match process_image w p img_path with
  | Ok face_results => Some face_results
  | Raise _ => None
  end.

(** The paths gathered from the five patterns. *)
Definition directory_images (disk : Disk) (input_dir : string) : list string :=
  concat (map (λ pattern, glob_glob disk (os_path_join input_dir pattern))
            image_patterns).

(** [process_directory]: [None] when no image is found. *)
Definition process_directory (w : World) (disk : Disk) (p : ImagePipeline)
    (input_dir : string) : option Aggregated :=
  let image_paths := directory_images disk input_dir in
  match image_paths with
  | [] => None
  | _ => Some (fold_left (process_directory_step w p) image_paths new_aggregated)
  end.

(** [d[k] += count]: [KeyError] when [k] is not a key of [d]. *)
Definition add_count (acc : result (gmap string nat)) (item : string * nat)
    : result (gmap string nat) :=
  d ← acc;
  match d !! item.1 with
  | Some n => Ok (<[item.1 := n + item.2]> d)
  | None => Raise ("'" ++ item.1 ++ "'")
  end.

(** [for k, count in counts.items(): d[k] += count].  The items come in
    the order of the map; the order matters only for which missing key
    is reported. *)
Definition add_counts (d counts : gmap string nat) : result (gmap string nat) :=
  fold_left add_count (map_to_list counts) (Ok d).

(** One turn of [for input_dir in input_dirs] of [run]. *)
Definition run_step (w : World) (disk : Disk) (p : ImagePipeline)
    (acc : result Aggregated) (input_dir : string) : result Aggregated :=
  aggregated ← acc;
  let input_dir := expanduser disk input_dir in
  if negb (isdir disk input_dir) then Ok aggregated
  else
    match process_directory w disk p input_dir with
    | None => Ok aggregated
    | Some result =>
      gender ← add_counts (gender_counts aggregated) (gender_counts result);
      age_group ← add_counts (age_group_counts aggregated) (age_group_counts result);
      Ok {| total_faces := total_faces aggregated + total_faces result;
            gender_counts := gender;
            age_group_counts := age_group |}
    end.

(** [run]: the directories are processed, the result is written to
    [output_path] and returned. *)
Definition run (w : World) (disk : Disk) (p : ImagePipeline)
    (input_dirs : list string) (output_path : string) : result Aggregated :=
  aggregated ← fold_left (run_step w disk p) input_dirs (Ok new_aggregated);
  _ ← dump_result disk output_path aggregated;
  Ok aggregated.

(** The batches of faces one entry of [input_dirs] contributes to
    [run]: none when it is not a directory. *)
Definition run_batches (w : World) (disk : Disk) (p : ImagePipeline)
    (input_dir : string) : list (list Face) :=
  let input_dir := expanduser disk input_dir in
  if isdir disk input_dir
  then omap (directory_batch w p) (directory_images disk input_dir)
  else [].

(** The number of faces of a list whose lowered gender label, or whose
    age group, is [k]. *)
Definition gender_occurrences (k : string) (faces : list Face) : nat :=
  length (List.filter (λ f, bool_decide (lower (gender f) = k)) faces).

Definition age_group_occurrences (k : string) (faces : list Face) : nat :=
  length (List.filter (λ f, bool_decide (age_group f = k)) faces).

(** The sum of the counts that a list of items holds for the key [k]. *)
Definition sum_for (k : string) (items : list (string * nat)) : nat :=
  sum_list ((List.filter (λ item, bool_decide (item.1 = k)) items).*2).

(** ** More of backend/services/pipeline_service.py *)

(** [analyze_directory]: [self.pipeline] is evaluated outside any
    [try]. *)
Definition analyze_directory (w : World) (disk : Disk) (self : PipelineService)
    (directory_path : string) : result (option Aggregated) * PipelineService :=
  match pipeline w self with
  | (Raise e, self') => (Raise e, self')
  | (Ok p, self') => (Ok (process_directory w disk p directory_path), self')
  end.

(** ** backend/services/llm_service.py and backend/routers/chat.py *)

(** An [LLMService] instance.  [completion] is the call
    [client.chat.completions.create] with [SYSTEM_PROMPT] and the given
    user message, followed by [.choices[0].message.content.strip()];
    [json_dumps] is [json.dumps(_, indent=2, ensure_ascii=False)]. *)
Record LLMService := mkLLMService {
  completion : string → result string;
  json_dumps : JsonText → string;
}.

Definition newline : string := "
".

Definition answer_question (self : LLMService) (json_data : JsonText)
    (question : string) : string :=
  let json_str := json_dumps self json_data in
  let user_message :=
    "## 분석 결과 데이터" ++ newline ++ "```json" ++ newline
    ++ json_str ++ newline ++ "```" ++ newline ++ newline
    ++ "## 사용자 질문" ++ newline ++ question ++ newline in
  match completion self user_message with
  | Ok content => content
  | Raise e => "죄송합니다. 답변을 생성하는 중 오류가 발생했습니다: " ++ e
  end.


(** A row of the table [chat_logs]; the table is the list of its rows in
    the order of insertion. *)
Record ChatLog := mkChatLog {
  log_analysis_id : string;
  log_question : string;
  log_answer : string;
  log_created_at : Z;
}.

Record ChatResponse := mkChatResponse {
  chat_analysis_id : string;
  chat_question : string;
  chat_answer : string;
  chat_created_at : Z;
}.

(** [chat], run at time [now] with the service [get_llm_service()]. *)
Definition chat (llm : LLMService) (now : Z)
    (request_analysis_id request_question : string)
    (st : State) (chat_logs : list ChatLog)
    : Http ChatResponse * list ChatLog :=
  match db st !! request_analysis_id with
  | None => (HTTPException 404 "Analysis not found", chat_logs)
  | Some analysis =>
    if decide (status analysis ≠ completed) then
      (HTTPException 400
         ("Analysis not completed. Status: " ++ status_name (status analysis)),
       chat_logs)
    else
      let json_data := json_result analysis in
      let answer := answer_question llm json_data request_question in
      let chat_log :=
        {| log_analysis_id := request_analysis_id;
           log_question := request_question;
           log_answer := answer;
           log_created_at := now |} in
      (Return {| chat_analysis_id := request_analysis_id;
                 chat_question := request_question;
                 chat_answer := answer;
                 chat_created_at := log_created_at chat_log |},
       (chat_logs ++ [chat_log])%list)
  end.

Record ChatHistoryItem := mkChatHistoryItem {
  item_question : string;
  item_answer : string;
  item_created_at : Z;
}.

Definition history_item (log : ChatLog) : ChatHistoryItem :=
  {| item_question := log_question log;
     item_answer := log_answer log;
     item_created_at := log_created_at log |}.

(** [ORDER BY created_at ASC] *)
Definition oldest_first (a b : ChatLog) : Prop :=
  (log_created_at a ≤ log_created_at b)%Z.

#[global] Instance oldest_first_dec a b : Decision (oldest_first a b).
Proof. unfold oldest_first. apply _. Defined.

#[global] Instance oldest_first_total : Total oldest_first.
Proof. intros a b. unfold oldest_first. lia. Qed.

#[global] Instance oldest_first_trans : Transitive oldest_first.
Proof. intros a b c. unfold oldest_first. lia. Qed.

(** The logs of one analysis, oldest first; logs written at the same
    instant come in the order of the sort. *)
Definition query_logs (analysis_id : string) (chat_logs : list ChatLog)
    : list ChatLog :=
  merge_sort oldest_first
    (List.filter (λ log, String.eqb (log_analysis_id log) analysis_id) chat_logs).

Definition get_chat_history (analysis_id : string) (st : State)
    (chat_logs : list ChatLog) : Http (list ChatHistoryItem) :=
  match db st !! analysis_id with
  | None => HTTPException 404 "Analysis not found"
  | Some _ =>
    Return (history_item <$> query_logs analysis_id chat_logs)
  end.



(** ** More scenarios *)

Module Cases.

Definition row (id : string) (s : Status) (r : JsonText) (t : Z) : Analysis :=
  {| analysis_id := id; json_result := r; image_paths := Some ["a.jpg"; "b.jpg"];
     status := s; created_at := t; updated_at := t |}.

Definition two_faces : Aggregated :=
  fold_faces new_aggregated
    [Scenario.face "male" "20s"; Scenario.face "female" "30s"].

(** A table of three jobs created at the times 10, 30 and 20. *)
Definition three_jobs : State :=
  {| db := <["j1" := row "j1" pending JEmpty 10]>
             (<["j2" := row "j2" completed (JAggregated two_faces) 30]>
                (<["j3" := row "j3" failed (JError "db gone") 20]> ∅));
     background_tasks := [];
     _pipeline_service := None;
     vision_calls := [] |}.

(** A disk with the directory "photos" holding "a.jpg", "b.jpg" and
    "broken.jpg", and the empty directory "empty". *)
Definition disk : Disk :=
  {| glob_glob := λ pattern,
       if String.eqb pattern "photos/*.jpg" then ["a.jpg"; "b.jpg"; "broken.jpg"]
       else [];
     isdir := λ d, String.eqb d "photos" || String.eqb d "empty";
     expanduser := λ d, d;
     dump_result := λ _ _, Ok () |}.

(** The same disk, where the result cannot be written. *)
Definition read_only_disk : Disk :=
  {| glob_glob := glob_glob disk;
     isdir := isdir disk;
     expanduser := expanduser disk;
     dump_result := λ _ _, Raise "Permission denied" |}.

(** A language model that answers, and one whose call raises. *)
Definition llm : LLMService :=
  {| completion := λ _, Ok "2 faces"; json_dumps := λ _, "{...}" |}.

Definition llm_down : LLMService :=
  {| completion := λ _, Raise "Connection error"; json_dumps := λ _, "{...}" |}.

(** Models whose gender classifier raises on crops less than 40 pixels
    wide. *)
Definition moody_models : ImagePipeline :=
  {| detect_faces := λ _,
       Ok [ {| det_bbox := (0, 0, 50, 60)%Z; det_confidence := 9 # 10 |};
            {| det_bbox := (10, 10, 40, 40)%Z; det_confidence := 4 # 5 |} ];
     classify_gender := λ img,
       if (width img <? 40)%Z then Raise "tensor shape mismatch" else Ok "Male";
     age_id2label := λ _, Ok "20-29" |}.


End Cases.

(** * Properties *)

(** ** The dictionaries of counts *)

Section Counts.
Implicit Types (d : gmap string nat) (k i : string).

Lemma lookup_incr_if_present d k i :
  incr_if_present k d !! i
  = if decide (i = k) then (λ n, n + 1) <$> d !! i else d !! i.
Proof.
  unfold incr_if_present.
  destruct (d !! k) as [n|] eqn:Hk; case_decide as Hi; subst.
  - by rewrite lookup_insert_eq, Hk.
  - by rewrite lookup_insert_ne.
  - by rewrite Hk.
  - done.
Qed.

Lemma incr_if_present_comm d k i :
  incr_if_present k (incr_if_present i d)
  = incr_if_present i (incr_if_present k d).
Proof.
  apply map_eq; intros j. rewrite !lookup_incr_if_present.
  repeat case_decide; done.
Qed.

Lemma incr_if_present_absent d k :
  d !! k = None → incr_if_present k d = d.
Proof. unfold incr_if_present. by intros ->. Qed.

Lemma incr_if_present_is_Some d k i :
  is_Some (incr_if_present k d !! i) ↔ is_Some (d !! i).
Proof.
  rewrite lookup_incr_if_present. case_decide; [|done].
  by rewrite fmap_is_Some.
Qed.

Lemma count_of_incr_if_present d k i :
  count_of (incr_if_present k d) i
  = count_of d i + (if decide (i = k ∧ is_Some (d !! i)) then 1 else 0).
Proof.
  unfold count_of. rewrite lookup_incr_if_present.
  destruct (d !! i) as [n|] eqn:Hi;
    destruct (decide (i = k)) as [Hik|Hik]; simpl;
    case_decide as Hd; try lia.
  - destruct Hd; eauto.
  - destruct Hd as [Hik' _]; contradiction.
  - destruct Hd as [_ [? ?]]; discriminate.
  - destruct Hd as [Hik' _]; contradiction.
Qed.
End Counts.

(** ** The fold over faces and batches *)

Lemma well_keyed_new : well_keyed new_aggregated.
Proof.
  split; intros k; simpl; unfold gender_keys, age_group_keys;
    rewrite !lookup_insert_is_Some', lookup_empty, !elem_of_cons, elem_of_nil;
    pose proof (is_Some_None (A:=nat)); intuition (subst; eauto).
Qed.

Lemma well_keyed_count_face a f : well_keyed a → well_keyed (count_face a f).
Proof.
  intros [Hg Ha]; split; intros k; simpl;
    rewrite incr_if_present_is_Some; auto.
Qed.

Lemma fold_faces_cons a f faces :
  fold_faces a (f :: faces) = fold_faces (count_face a f) faces.
Proof. reflexivity. Qed.

Lemma fold_batches_cons a b batches :
  fold_batches a (b :: batches) = fold_batches (fold_faces a b) batches.
Proof. reflexivity. Qed.

Lemma well_keyed_fold_faces faces a :
  well_keyed a → well_keyed (fold_faces a faces).
Proof.
  revert a; induction faces as [|f faces IH]; intros a Ha; [done|].
  rewrite fold_faces_cons. apply IH, well_keyed_count_face, Ha.
Qed.

Lemma fold_batches_concat batches a :
  fold_batches a batches = fold_faces a (concat batches).
Proof.
  revert a; induction batches as [|b batches IH]; intros a; [done|].
  rewrite fold_batches_cons, IH. simpl. unfold fold_faces.
  by rewrite fold_left_app.
Qed.

Lemma total_faces_fold_faces faces a :
  total_faces (fold_faces a faces) = total_faces a + length faces.
Proof.
  revert a; induction faces as [|f faces IH]; intros a; [simpl; lia|].
  rewrite fold_faces_cons, IH. simpl. lia.
Qed.

(** One more face adds one to a sum of counts exactly when its label is
    one of the keys. *)
Lemma count_of_incr_key d k i :
  is_Some (d !! i) →
  count_of (incr_if_present k d) i = count_of d i + indicator (bool_decide (k = i)).
Proof.
  intros Hi. rewrite count_of_incr_if_present.
  case_decide as Hd; case_bool_decide as Hb; simpl; try lia.
  - destruct Hd; congruence.
  - destruct Hd; auto.
Qed.

(** Closes a goal from hypotheses on which key a label is. *)
Ltac solve_keys :=
  repeat match goal with
  | H : _ ∈ _ :: _ |- _ => rewrite elem_of_cons in H
  | H : _ ∈ [] |- _ => rewrite elem_of_nil in H
  | H : _ ∉ _ :: _ |- _ => rewrite not_elem_of_cons in H
  | H : _ ∧ _ |- _ => destruct H
  | H : _ ∨ _ |- _ => destruct H
  end; congruence.

Lemma gender_sum_count_face a f :
  well_keyed a →
  gender_sum (count_face a f) = gender_sum a + indicator (gender_recognized f).
Proof.
  intros [Hg _]. unfold gender_sum, gender_recognized; simpl.
  rewrite !count_of_incr_key by (apply Hg; repeat constructor).
  unfold gender_keys.
  repeat case_bool_decide; simpl; try lia; exfalso; solve_keys.
Qed.

Lemma age_group_sum_count_face a f :
  well_keyed a →
  age_group_sum (count_face a f) = age_group_sum a + indicator (age_recognized f).
Proof.
  intros [_ Ha]. unfold age_group_sum, age_recognized; simpl.
  rewrite !count_of_incr_key by (apply Ha; repeat constructor).
  unfold age_group_keys.
  repeat case_bool_decide; simpl; try lia; exfalso; solve_keys.
Qed.

Lemma gender_sum_fold_faces faces a :
  well_keyed a →
  gender_sum (fold_faces a faces)
  = gender_sum a + length (List.filter gender_recognized faces).
Proof.
  revert a; induction faces as [|f faces IH]; intros a Ha; [simpl; lia|].
  rewrite fold_faces_cons, IH by by apply well_keyed_count_face.
  rewrite gender_sum_count_face by done.
  simpl. destruct (gender_recognized f); simpl; lia.
Qed.

Lemma age_group_sum_fold_faces faces a :
  well_keyed a →
  age_group_sum (fold_faces a faces)
  = age_group_sum a + length (List.filter age_recognized faces).
Proof.
  revert a; induction faces as [|f faces IH]; intros a Ha; [simpl; lia|].
  rewrite fold_faces_cons, IH by by apply well_keyed_count_face.
  rewrite age_group_sum_count_face by done.
  simpl. destruct (age_recognized f); simpl; lia.
Qed.

Lemma filter_all_length {A} (P : A → bool) (l : list A) :
  Forall (λ x, P x = true) l → length (List.filter P l) = length l.
Proof. induction 1 as [|x l Hx _ IH]; simpl; [done|]. rewrite Hx; simpl; lia. Qed.

Lemma filter_length_le {A} (P : A → bool) (l : list A) :
  (length (List.filter P l) ≤ length l)%nat.
Proof. induction l as [|x l IH]; simpl; [done|]. destruct (P x); simpl; lia. Qed.

Lemma count_face_comm a f g :
  count_face (count_face a f) g = count_face (count_face a g) f.
Proof.
  unfold count_face; simpl. f_equal; apply incr_if_present_comm.
Qed.

Lemma fold_faces_permutation faces faces' a :
  faces ≡ₚ faces' → fold_faces a faces = fold_faces a faces'.
Proof.
  intros Hp; revert a.
  induction Hp as [|f l l' _ IH|f g l|l l' l'' _ IH1 _ IH2]; intros a.
  - done.
  - rewrite !fold_faces_cons. apply IH.
  - rewrite !fold_faces_cons. by rewrite count_face_comm.
  - by rewrite IH1.
Qed.

Lemma concat_permutation {A} (ls ls' : list (list A)) :
  ls ≡ₚ ls' → concat ls ≡ₚ concat ls'.
Proof.
  induction 1 as [|b l l' _ IH|b c l|l l' l'' _ IH1 _ IH2]; simpl.
  - done.
  - by rewrite IH.
  - rewrite !(assoc app). by rewrite (Permutation_app_comm b c).
  - by rewrite IH1.
Qed.

(** ** The image pipeline *)

Lemma _map_age_to_group_cases age_label :
  _map_age_to_group age_label ∈ age_group_keys ∧
  (age_mapping !! age_label = None → _map_age_to_group age_label = "40_plus").
Proof.
  unfold _map_age_to_group. split; [|by intros ->].
  destruct (age_mapping !! age_label) as [g|] eqn:Hl; simpl.
  - unfold age_mapping in Hl. apply elem_of_list_to_map_2 in Hl.
    unfold age_group_keys.
    repeat (apply elem_of_cons in Hl as [Hl|Hl];
            [injection Hl as _ ->; set_solver|]).
    by apply elem_of_nil in Hl.
  - unfold age_group_keys. set_solver.
Qed.

Lemma classify_faces_age_recognized w p img faces results :
  classify_faces w p img faces = Ok results →
  Forall (λ r, age_recognized r = true) results.
Proof.
  revert results; induction faces as [|d faces IH]; intros results; simpl.
  - intros [= <-]. constructor.
  - destruct (Image_crop w img (det_bbox d)) as [c|]; simpl; [|done].
    destruct (too_small c); [apply IH|].
    destruct (classify_gender p c) as [g|]; simpl; [|done].
    unfold classify_age.
    destruct (age_id2label p c) as [lbl|]; simpl; [|done].
    destruct (classify_faces w p img faces) as [rs|]; simpl; [|done].
    intros [= <-]. constructor; [|by apply IH].
    unfold age_recognized; simpl. apply bool_decide_eq_true.
    apply _map_age_to_group_cases.
Qed.

Lemma process_image_age_recognized w p image_path results :
  process_image w p image_path = Ok results →
  Forall (λ r, age_recognized r = true) results.
Proof.
  unfold process_image.
  destruct (detect_faces p image_path) as [[|d faces]|]; simpl; [|..|done].
  - intros [= <-]. constructor.
  - destruct (Image_open w image_path) as [img|]; [|done].
    exact (classify_faces_age_recognized w p img (d :: faces) results).
Qed.

Lemma classify_faces_kept w p img faces results :
  classify_faces w p img faces = Ok results →
  map (λ r, (bbox r, confidence r)) results
  = map (λ d, (det_bbox d, det_confidence d))
      (List.filter (crop_large_enough w img) faces).
Proof.
  revert results; induction faces as [|d faces IH]; intros results; simpl.
  - by intros [= <-].
  - unfold crop_large_enough at 1.
    destruct (Image_crop w img (det_bbox d)) as [c|]; simpl; [|done].
    destruct (too_small c); simpl; [apply IH|].
    destruct (classify_gender p c) as [g|]; simpl; [|done].
    destruct (classify_age p c) as [a|]; simpl; [|done].
    destruct (classify_faces w p img faces) as [rs|]; simpl; [|done].
    intros [= <-]. simpl. f_equal. by apply IH.
Qed.

(** ** The loop of [analyze_images] *)

Lemma pipeline_engine w self :
  (pipeline w self).1 = engine w self ∧
  engine w (pipeline w self).2 = engine w self.
Proof.
  unfold pipeline, engine.
  destruct (_pipeline self) as [p|] eqn:Hp; simpl; [by rewrite Hp|].
  destruct (ImagePipeline_new w (device self)) as [p|e] eqn:Hn; simpl;
    [done|by rewrite Hp].
Qed.

Lemma image_batch_engine w self self' img_path :
  engine w self = engine w self' →
  image_batch w self img_path = image_batch w self' img_path.
Proof. unfold image_batch. by intros ->. Qed.

Lemma analyze_step_spec w l img_path :
  aggregated (analyze_step w l img_path)
  = match image_batch w (service l) img_path with
    | Some face_results => fold_faces (aggregated l) face_results
    | None => aggregated l
    end
  ∧ engine w (service (analyze_step w l img_path)) = engine w (service l).
Proof.
  unfold analyze_step, image_batch.
  destruct (path_exists w img_path); simpl; [|done].
  destruct (pipeline_engine w (service l)) as [H1 H2].
  destruct (pipeline w (service l)) as [[p|e] self]; simpl in *;
    rewrite <- H1; [|by rewrite H2, <- H1].
  destruct (process_image w p img_path); simpl; by rewrite H2, <- H1.
Qed.

Lemma omap_pointwise {A B} (f g : A → option B) (l : list A) :
  (∀ x, f x = g x) → omap f l = omap g l.
Proof.
  intros Hfg; induction l as [|x l IH]; [done|].
  csimpl. by rewrite Hfg, IH.
Qed.

Lemma analyze_loop_spec w image_paths l :
  aggregated (fold_left (analyze_step w) image_paths l)
  = fold_batches (aggregated l) (omap (image_batch w (service l)) image_paths).
Proof.
  revert l; induction image_paths as [|p image_paths IH]; intros l; [done|].
  simpl. rewrite IH.
  destruct (analyze_step_spec w l p) as [Ha He]. rewrite Ha.
  rewrite (omap_pointwise _ (image_batch w (service l)))
    by (intros; by apply image_batch_engine).
  csimpl. destruct (image_batch w (service l) p); done.
Qed.

Lemma analyze_images_spec w self image_paths :
  aggregated (analyze_images w self image_paths)
  = fold_batches new_aggregated (omap (image_batch w self) image_paths).
Proof. unfold analyze_images. by rewrite analyze_loop_spec. Qed.

Lemma image_batch_age_recognized w self img_path face_results :
  image_batch w self img_path = Some face_results →
  Forall (λ r, age_recognized r = true) face_results.
Proof.
  unfold image_batch.
  destruct (path_exists w img_path); [|done].
  destruct (engine w self) as [p|]; [|done].
  destruct (process_image w p img_path) as [rs|] eqn:Hp; [|done].
  intros [= <-]. by apply process_image_age_recognized in Hp.
Qed.

Lemma batches_age_recognized w self image_paths :
  Forall (λ r, age_recognized r = true)
    (concat (omap (image_batch w self) image_paths)).
Proof.
  induction image_paths as [|p image_paths IH]; csimpl; [constructor|].
  destruct (image_batch w self p) as [fs|] eqn:Hb; [|done].
  simpl. apply Forall_app; split; [|done].
  by apply image_batch_age_recognized in Hb.
Qed.

Lemma omap_all_None {A B} (f : A → option B) (l : list A) :
  Forall (λ x, f x = None) l → omap f l = [].
Proof. induction 1 as [|x l Hx _ IH]; [done|]. csimpl. by rewrite Hx. Qed.

Lemma filter_drops_length {A} (P : A → bool) (l : list A) (x : A) :
  x ∈ l → P x = false → (length (List.filter P l) < length l)%nat.
Proof.
  induction 1 as [y l|y z l _ IH]; intros Hx; simpl.
  - rewrite Hx. pose proof (filter_length_le P l). lia.
  - specialize (IH Hx). destruct (P z); simpl; lia.
Qed.

(** When all faces carry a recognized age group the counts add up. *)
Lemma aggregate_totals (batches : list (list Face)) :
  Forall (λ r, age_recognized r = true) (concat batches) →
  age_group_sum (fold_batches new_aggregated batches)
  = total_faces (fold_batches new_aggregated batches).
Proof.
  intros Hall. rewrite fold_batches_concat.
  rewrite total_faces_fold_faces, age_group_sum_fold_faces by apply well_keyed_new.
  by rewrite filter_all_length.
Qed.

(** ** Aggregation *)

(** C4: for every sequence of batches of face records folded into the
    zero aggregate, the male and female counts together, and the four
    age-group counts together, are at most [total_faces]; each sum
    equals [total_faces] when every face carries a recognized label of
    that kind.  [total_faces] is the number of faces, each sum is the
    number of faces with a recognized label, and a face whose gender
    label (age group) is not recognized adds one to [total_faces] and
    leaves the gender (age-group) dictionary as it was.  The same bounds
    hold for the dictionary returned by [analyze_images]. *)
Theorem aggregate_sums_bounded_by_total (batches : list (list Face)) :
  let a := fold_batches new_aggregated batches in
  let faces := concat batches in
  (gender_sum a ≤ total_faces a)%nat ∧
  (age_group_sum a ≤ total_faces a)%nat ∧
  (Forall (λ f, gender_recognized f = true) faces →
     gender_sum a = total_faces a) ∧
  (Forall (λ f, age_recognized f = true) faces →
     age_group_sum a = total_faces a) ∧
  total_faces a = length faces ∧
  gender_sum a = length (List.filter gender_recognized faces) ∧
  age_group_sum a = length (List.filter age_recognized faces) ∧
  (∀ f, gender_recognized f = false →
     total_faces (count_face a f) = total_faces a + 1 ∧
     gender_counts (count_face a f) = gender_counts a) ∧
  (∀ f, age_recognized f = false →
     total_faces (count_face a f) = total_faces a + 1 ∧
     age_group_counts (count_face a f) = age_group_counts a) ∧
  (∀ w self image_paths,
     let r := aggregated (analyze_images w self image_paths) in
     (gender_sum r ≤ total_faces r)%nat ∧ (age_group_sum r ≤ total_faces r)%nat).
Proof.
  assert (Hgen : ∀ bs,
    let a := fold_batches new_aggregated bs in
    well_keyed a ∧
    total_faces a = length (concat bs) ∧
    gender_sum a = length (List.filter gender_recognized (concat bs)) ∧
    age_group_sum a = length (List.filter age_recognized (concat bs))).
  { intros bs a. subst a. rewrite fold_batches_concat.
    split; [apply well_keyed_fold_faces, well_keyed_new|].
    rewrite total_faces_fold_faces, gender_sum_fold_faces,
      age_group_sum_fold_faces by apply well_keyed_new.
    done. }
  intros a faces.
  destruct (Hgen batches) as (Hwk & Ht & Hg & Ha). fold a faces in Hwk, Ht, Hg, Ha.
  pose proof (filter_length_le gender_recognized faces).
  pose proof (filter_length_le age_recognized faces).
  split_and!.
  - lia.
  - lia.
  - intros Hall. rewrite Hg, Ht. by apply filter_all_length.
  - intros Hall. rewrite Ha, Ht. by apply filter_all_length.
  - done.
  - done.
  - done.
  - intros f Hf. split; [done|]. apply incr_if_present_absent.
    destruct Hwk as [Hk _].
    apply eq_None_not_Some. rewrite Hk.
    by apply bool_decide_eq_false in Hf.
  - intros f Hf. split; [done|]. apply incr_if_present_absent.
    destruct Hwk as [_ Hk].
    apply eq_None_not_Some. rewrite Hk.
    by apply bool_decide_eq_false in Hf.
  - intros w self image_paths r. subst r. rewrite analyze_images_spec.
    destruct (Hgen (omap (image_batch w self) image_paths))
      as (_ & Ht' & Hg' & Ha').
    rewrite Hg', Ha', Ht'. split; apply filter_length_le.
Qed.

(** Three faces in two batches, all with recognized labels: both sums
    equal the total. *)
Lemma aggregate_sums_bounded_by_total_witness :
  let batches :=
    [[Scenario.face "Male" "20s"; Scenario.face "female" "30s"];
     [Scenario.face "male" "20s"]] in
  let a := fold_batches new_aggregated batches in
  Forall (λ f, gender_recognized f = true) (concat batches) ∧
  Forall (λ f, age_recognized f = true) (concat batches) ∧
  gender_sum a = total_faces a ∧ age_group_sum a = total_faces a.
Proof.
  intros batches a.
  assert (Hg : Forall (λ f, gender_recognized f = true) (concat batches))
    by (repeat constructor).
  assert (Ha : Forall (λ f, age_recognized f = true) (concat batches))
    by (repeat constructor).
  destruct (aggregate_sums_bounded_by_total batches)
    as (_ & _ & Hgs & Has & _).
  exact (conj Hg (conj Ha (conj (Hgs Hg) (Has Ha)))).
Defined.

(** C5: the fold gives the same aggregate for every order of the
    batches: permuting the batches, or regrouping the same faces into
    other batches, does not change the result, and folding a sequence in
    two parts is folding the whole.  So the dictionary returned by
    [analyze_images] does not depend on the order of the image paths. *)
Theorem aggregation_order_independent :
  (∀ acc (batches batches' : list (list Face)),
     batches ≡ₚ batches' →
     fold_batches acc batches = fold_batches acc batches') ∧
  (∀ acc (batches batches' : list (list Face)),
     concat batches ≡ₚ concat batches' →
     fold_batches acc batches = fold_batches acc batches') ∧
  (∀ acc (batches batches' : list (list Face)),
     fold_batches acc (batches ++ batches')
     = fold_batches (fold_batches acc batches) batches') ∧
  (∀ w self (image_paths image_paths' : list string),
     image_paths ≡ₚ image_paths' →
     aggregated (analyze_images w self image_paths)
     = aggregated (analyze_images w self image_paths')).
Proof.
  assert (Hc : ∀ acc (bs bs' : list (list Face)),
    concat bs ≡ₚ concat bs' → fold_batches acc bs = fold_batches acc bs').
  { intros acc bs bs' Hp. rewrite !fold_batches_concat.
    by apply fold_faces_permutation. }
  split_and!.
  - intros acc bs bs' Hp. by apply Hc, concat_permutation.
  - exact Hc.
  - intros acc bs bs'. unfold fold_batches. apply fold_left_app.
  - intros w self ps ps' Hp. rewrite !analyze_images_spec.
    apply Hc, concat_permutation. by rewrite Hp.
Qed.

(** The batches [A; B; C] folded as [B; A; C]. *)
Lemma aggregation_order_independent_witness :
  let A := [Scenario.face "male" "20s"; Scenario.face "female" "30s"] in
  let B := [Scenario.face "male" "20s"] in
  let C := [Scenario.face "other" "child"] in
  [A; B; C] ≡ₚ [B; A; C] ∧
  fold_batches new_aggregated [A; B; C] = fold_batches new_aggregated [B; A; C].
Proof.
  intros A B C.
  assert (Hp : [A; B; C] ≡ₚ [B; A; C]) by apply perm_swap.
  exact (conj Hp (proj1 aggregation_order_independent new_aggregated _ _ Hp)).
Defined.

(** ** The image pipeline and the aggregate *)

(** C9: [_map_age_to_group] returns one of the four age groups on every
    string and returns "40_plus" on every label outside its table; so
    every face record returned by [process_image] carries a recognized
    age group, counting it increments one of the four counts (the label
    is a key of the dictionary), and the age-group counts of the
    dictionary returned by [analyze_images] add up to [total_faces]. *)
Theorem age_group_always_recognized :
  (∀ age_label, _map_age_to_group age_label ∈ age_group_keys) ∧
  (∀ age_label, age_mapping !! age_label = None →
     _map_age_to_group age_label = "40_plus") ∧
  (∀ w p image_path results,
     process_image w p image_path = Ok results →
     Forall (λ r, age_recognized r = true) results ∧
     ∀ a r, well_keyed a → r ∈ results →
       is_Some (age_group_counts a !! age_group r) ∧
       age_group_sum (count_face a r) = age_group_sum a + 1) ∧
  (∀ w self image_paths,
     age_group_sum (aggregated (analyze_images w self image_paths))
     = total_faces (aggregated (analyze_images w self image_paths))).
Proof.
  split_and!.
  - intros age_label. apply _map_age_to_group_cases.
  - intros age_label. apply _map_age_to_group_cases.
  - intros w p image_path results Hp.
    apply process_image_age_recognized in Hp. split; [done|].
    intros a r Ha Hr. rewrite Forall_forall in Hp. specialize (Hp r Hr).
    split.
    + apply Ha. by apply bool_decide_eq_true in Hp.
    + rewrite age_group_sum_count_face by done. by rewrite Hp.
  - intros w self image_paths. rewrite analyze_images_spec.
    by apply aggregate_totals, batches_age_recognized.
Qed.

(** The face found in "a.jpg" carries the age group "20s". *)
Lemma age_group_always_recognized_witness :
  ∃ results,
    process_image Scenario.world Scenario.models "a.jpg" = Ok results ∧
    Forall (λ r, age_recognized r = true) results ∧
    age_mapping !! "unknown label" = None ∧
    _map_age_to_group "unknown label" = "40_plus".
Proof.
  eexists. split; [reflexivity|].
  destruct age_group_always_recognized as (_ & Hdef & Hproc & _).
  split; [|split; [reflexivity|]].
  - exact (proj1 (Hproc Scenario.world Scenario.models "a.jpg" _ eq_refl)).
  - exact (Hdef "unknown label" eq_refl).
Defined.

(** C10: the list returned by [process_image] holds, in order, exactly
    the detections whose crop is at least 10 pixels wide and 10 pixels
    high: a detection whose crop is narrower or shorter than 10 pixels
    is left out, so the list is then strictly shorter than the list of
    detections, and every record returned comes from a detection whose
    crop has both sides of at least 10 pixels.  Only the faces returned are counted, and there is an
    image with two detections for which [total_faces] is 1. *)
Theorem small_faces_excluded :
  (∀ w p image_path faces original_image results,
     detect_faces p image_path = Ok faces →
     (faces ≠ [] → Image_open w image_path = Ok original_image) →
     process_image w p image_path = Ok results →
     map (λ r, (bbox r, confidence r)) results
     = map (λ d, (det_bbox d, det_confidence d))
         (List.filter (crop_large_enough w original_image) faces) ∧
     (length results ≤ length faces)%nat ∧
     (∀ r, r ∈ results →
        ∃ d face_crop, d ∈ faces ∧
          bbox r = det_bbox d ∧ confidence r = det_confidence d ∧
          Image_crop w original_image (det_bbox d) = Ok face_crop ∧
          (10 ≤ width face_crop)%Z ∧ (10 ≤ height face_crop)%Z) ∧
     (∀ d face_crop, d ∈ faces →
        Image_crop w original_image (det_bbox d) = Ok face_crop →
        ((width face_crop < 10)%Z ∨ (height face_crop < 10)%Z) →
        (length results < length faces)%nat)) ∧
  (∃ w self image_path faces,
     engine w self = Ok Scenario.models ∧
     detect_faces Scenario.models image_path = Ok faces ∧
     length faces = 2 ∧
     total_faces (aggregated (analyze_images w self [image_path])) = 1).
Proof.
  split.
  - intros w p image_path faces img results Hd Hopen Hp.
    assert (Hmap : map (λ r, (bbox r, confidence r)) results
      = map (λ d, (det_bbox d, det_confidence d))
          (List.filter (crop_large_enough w img) faces)).
    { unfold process_image in Hp. rewrite Hd in Hp. simpl in Hp.
      destruct faces as [|d faces]; [by injection Hp as <-|].
      rewrite Hopen in Hp by done.
      exact (classify_faces_kept w p img (d :: faces) results Hp). }
    assert (Hlen : length results
      = length (List.filter (crop_large_enough w img) faces)).
    { by rewrite <- (length_map (λ r, (bbox r, confidence r))), Hmap, length_map. }
    split_and!; [done|rewrite Hlen; apply filter_length_le|..].
    { intros r Hr.
      apply list_elem_of_In, (in_map (λ r, (bbox r, confidence r))) in Hr.
      rewrite Hmap in Hr. apply in_map_iff in Hr as (d & Heq & Hin).
      apply filter_In in Hin as [Hin Hkeep].
      apply list_elem_of_In in Hin. injection Heq as Hb Hc.
      unfold crop_large_enough in Hkeep.
      destruct (Image_crop w img (det_bbox d)) as [c|] eqn:Hcrop; [|done].
      apply negb_true_iff, orb_false_iff in Hkeep as [Hw Hh].
      apply Z.ltb_ge in Hw, Hh.
      exists d, c. by split_and!. }
    intros d c Hin Hc Hsmall. rewrite Hlen.
    apply filter_drops_length with d; [done|].
    unfold crop_large_enough. rewrite Hc. unfold too_small.
    destruct Hsmall as [Hs|Hs]; apply Z.ltb_lt in Hs; rewrite Hs;
      by rewrite ?orb_true_r.
  - exists Scenario.world, (get_pipeline_service Scenario.empty_state), "a.jpg".
    eexists. split_and!; reflexivity.
Qed.

(** "a.jpg": two detections, the second 5 pixels wide; one face is
    returned. *)
Lemma small_faces_excluded_witness :
  ∃ faces original_image results,
    detect_faces Scenario.models "a.jpg" = Ok faces ∧
    Image_open Scenario.world "a.jpg" = Ok original_image ∧
    process_image Scenario.world Scenario.models "a.jpg" = Ok results ∧
    length faces = 2 ∧ length results = 1 ∧
    map (λ r, (bbox r, confidence r)) results
    = map (λ d, (det_bbox d, det_confidence d))
        (List.filter (crop_large_enough Scenario.world original_image) faces).
Proof.
  do 3 eexists.
  split_and!; [reflexivity..|].
  exact (proj1 (proj1 small_faces_excluded Scenario.world Scenario.models
                  "a.jpg" _ _ _ eq_refl (λ _, eq_refl) eq_refl)).
Defined.

(** ** Jobs *)

Lemma run_analysis_background_row w now analysis_id image_paths st analysis :
  db st !! analysis_id = Some analysis →
  db (run_analysis_background w now analysis_id image_paths st) !! analysis_id
  = Some (update_row analysis
            (JAggregated
               (aggregated
                  (analyze_images w (get_pipeline_service st) image_paths)))
            completed now).
Proof.
  intros Hrow. unfold run_analysis_background. rewrite Hrow.
  unfold run_pipeline_update_results, update_status_processing.
  rewrite Hrow. simpl. rewrite !lookup_insert_eq. simpl.
  by rewrite lookup_insert_eq.
Qed.

(** C2: whatever happens on single images, a background run on an
    existing job ends with the job completed: the stored result is the
    fold over the images that exist and are processed without an
    exception, every other image being skipped.  When every image is
    skipped, in particular when processing raises for every image, the
    job is completed with the zero dictionary, so with [total_faces]
    equal to 0. *)
Theorem per_image_failures_never_fail_job (w : World) (now : Z)
    (analysis_id : string) (image_paths : list string) (st : State)
    (analysis : Analysis) :
  db st !! analysis_id = Some analysis →
  let st' := run_analysis_background w now analysis_id image_paths st in
  let self := get_pipeline_service st in
  let result := fold_batches new_aggregated (omap (image_batch w self) image_paths) in
  db st' !! analysis_id
    = Some (update_row analysis (JAggregated result) completed now) ∧
  (status <$> db st' !! analysis_id) = Some completed ∧
  (Forall (λ p, image_batch w self p = None) image_paths →
     result = new_aggregated) ∧
  ((∀ p img_path, engine w self = Ok p → img_path ∈ image_paths →
      ∃ e, process_image w p img_path = Raise e) →
     result = new_aggregated ∧ total_faces result = 0).
Proof.
  intros Hrow st' self result.
  assert (Hst : db st' !! analysis_id
    = Some (update_row analysis (JAggregated result) completed now)).
  { subst st' result self.
    rewrite (run_analysis_background_row _ _ _ _ _ _ Hrow).
    by rewrite analyze_images_spec. }
  assert (Hnone : Forall (λ p, image_batch w self p = None) image_paths →
    result = new_aggregated).
  { intros Hall. subst result. by rewrite omap_all_None. }
  split_and!; [done|by rewrite Hst|done|].
  intros Hraise.
  assert (result = new_aggregated) as ->; [|done].
  apply Hnone, Forall_forall. intros p Hin. unfold image_batch.
  destruct (path_exists w p); [|done].
  destruct (engine w self) as [pl|]; [|done].
  by destruct (Hraise pl p eq_refl Hin) as [e ->].
Qed.

(** A world whose detector raises on every image: the job is completed
    and holds the zero dictionary. *)
Lemma per_image_failures_never_fail_job_witness :
  let st := Scenario.state_with pending JEmpty in
  let st' :=
    run_analysis_background Scenario.world_all_raise 7 "job-1"
      ["a.jpg"; "b.jpg"] st in
  db st !! "job-1" = Some (Scenario.job pending JEmpty) ∧
  (status <$> db st' !! "job-1") = Some completed ∧
  (json_result <$> db st' !! "job-1") = Some (JAggregated new_aggregated).
Proof.
  intros st st'.
  assert (Hrow : db st !! "job-1" = Some (Scenario.job pending JEmpty))
    by reflexivity.
  destruct (per_image_failures_never_fail_job Scenario.world_all_raise 7
              "job-1" ["a.jpg"; "b.jpg"] st _ Hrow) as (H1 & H2 & _ & H4).
  destruct H4 as [Hzero _].
  { intros p img_path [= <-] _. by eexists. }
  split_and!; [done|done|].
  subst st'. by rewrite H1, Hzero.
Defined.

(** C3, on the input where it fails: in a world where loading the models
    raises, a started job whose images exist is run to the end and is
    completed with the zero dictionary; it is not marked failed, no
    reason is stored, and the vision engine was run on no image. *)
Theorem engine_init_failure_completes_job :
  let st0 := Scenario.state_with pending JEmpty in
  let st1 := (start_analysis "job-1" st0).2 in
  let st2 := run_next_task Scenario.world_no_engine 7 st1 in
  Scenario.files_on_disk "a.jpg" = true ∧ Scenario.files_on_disk "b.jpg" = true ∧
  background_tasks st1 = [("job-1", ["a.jpg"; "b.jpg"])] ∧
  engine Scenario.world_no_engine (get_pipeline_service st1)
    = Raise "model download failed" ∧
  db st2 !! "job-1"
    = Some (update_row (Scenario.job pending JEmpty)
              (JAggregated new_aggregated) completed 7) ∧
  (status <$> db st2 !! "job-1") = Some completed ∧
  db st2 !! "job-1"
    ≠ db (mark_failed 7 "job-1" "model download failed" st1) !! "job-1" ∧
  vision_calls st2 = [].
Proof. split_and!; try reflexivity. discriminate. Qed.

(** Whatever the job, an engine that cannot be built leaves every image
    skipped and the job completed. *)
Lemma engine_failure_absorbed w now analysis_id image_paths st analysis e :
  db st !! analysis_id = Some analysis →
  engine w (get_pipeline_service st) = Raise e →
  db (run_analysis_background w now analysis_id image_paths st) !! analysis_id
  = Some (update_row analysis (JAggregated new_aggregated) completed now).
Proof.
  intros Hrow He.
  rewrite (run_analysis_background_row _ _ _ _ _ _ Hrow), analyze_images_spec.
  rewrite omap_all_None; [done|].
  apply Forall_forall. intros p _. unfold image_batch. rewrite He.
  by destruct (path_exists w p).
Qed.

(** [start_analysis] never writes a row. *)
Lemma start_analysis_keeps_rows analysis_id st :
  db (start_analysis analysis_id st).2 = db st.
Proof.
  unfold start_analysis.
  destruct (db st !! analysis_id) as [analysis|]; [|done].
  repeat case_decide; try done.
  by destruct (default [] (image_paths analysis)).
Qed.

(** So a call that was accepted is accepted again, as long as no
    background task has touched the row. *)
Lemma start_analysis_accepted_again analysis_id st body :
  (start_analysis analysis_id st).1 = Return body →
  (start_analysis analysis_id (start_analysis analysis_id st).2).1 = Return body.
Proof.
  unfold start_analysis.
  destruct (db st !! analysis_id) as [analysis|] eqn:Hrow; [|done].
  destruct (decide (status analysis = processing)) as [|Hp]; [done|].
  destruct (decide (status analysis = completed)) as [Hc|Hc].
  - simpl. rewrite Hrow. by rewrite !decide_False, decide_True by congruence.
  - destruct (default [] (image_paths analysis)) as [|p ps] eqn:Hi; [done|].
    simpl. rewrite Hrow, Hi. by rewrite !decide_False by done.
Qed.

(** C1, on the input where it fails: two calls of [start_analysis] on
    the same pending job, the second before the background task of the
    first has begun, are both accepted; neither writes the row, two
    tasks are queued, and running them runs the vision engine twice on
    every image.  Only once a task has marked the row does a further
    call get the answer 400. *)
Theorem start_twice_both_accepted :
  let st0 := Scenario.state_with pending JEmpty in
  let accepted :=
    Return {| start_analysis_id := "job-1"; start_status := processing;
              message := "Analysis started for 2 images. Poll /api/result/job-1 for results." |} in
  let '(r1, st1) := start_analysis "job-1" st0 in
  let '(r2, st2) := start_analysis "job-1" st1 in
  let st3 := run_next_task Scenario.world 7 st2 in
  let st4 := run_next_task Scenario.world 8 st3 in
  r1 = accepted ∧ r2 = accepted ∧
  db st1 = db st0 ∧ db st2 = db st0 ∧
  background_tasks st2
    = [("job-1", ["a.jpg"; "b.jpg"]); ("job-1", ["a.jpg"; "b.jpg"])] ∧
  vision_calls st4 = ["a.jpg"; "b.jpg"; "a.jpg"; "b.jpg"] ∧
  (start_analysis "job-1" (update_status_processing 7 "job-1" st2)).1
    = HTTPException 400 "Analysis is already in progress".
Proof. vm_compute. split_and!; reflexivity. Qed.

(** C6: [start_analysis] on a completed job returns the body with status
    completed and leaves the whole state as it is: the row (its result
    and [updated_at]), the queue of background tasks, the pipeline
    service and the record of vision-engine runs. *)
Theorem start_on_completed_is_noop (analysis_id : string) (st : State)
    (analysis : Analysis) :
  db st !! analysis_id = Some analysis →
  status analysis = completed →
  start_analysis analysis_id st
  = (Return {| start_analysis_id := analysis_id;
               start_status := completed;
               message := "Analysis already completed. Use /api/result/{analysis_id} to get results." |},
     st).
Proof.
  intros Hrow Hs. unfold start_analysis. rewrite Hrow, Hs.
  by repeat case_decide.
Qed.

Lemma start_on_completed_is_noop_witness :
  let st := Scenario.state_with completed (JAggregated new_aggregated) in
  (start_analysis "job-1" st).2 = st ∧
  (start_status <$> match (start_analysis "job-1" st).1 with
                    | Return body => Some body
                    | HTTPException _ _ => None
                    end) = Some completed.
Proof.
  intros st.
  rewrite (start_on_completed_is_noop "job-1" st
             (Scenario.job completed (JAggregated new_aggregated))
             eq_refl eq_refl).
  split; reflexivity.
Defined.

(** C8: [start_analysis] on a job whose status is processing raises the
    error 400 "Analysis is already in progress" and leaves the whole
    state as it is: no row is written and no background task is
    added. *)
Theorem start_on_processing_is_rejected (analysis_id : string) (st : State)
    (analysis : Analysis) :
  db st !! analysis_id = Some analysis →
  status analysis = processing →
  start_analysis analysis_id st
  = (HTTPException 400 "Analysis is already in progress", st).
Proof.
  intros Hrow Hs. unfold start_analysis. rewrite Hrow, Hs.
  by case_decide.
Qed.

Lemma start_on_processing_is_rejected_witness :
  let st := Scenario.state_with processing JEmpty in
  start_analysis "job-1" st
  = (HTTPException 400 "Analysis is already in progress", st).
Proof.
  intros st.
  exact (start_on_processing_is_rejected "job-1" st
           (Scenario.job processing JEmpty) eq_refl eq_refl).
Defined.

(** ** Upload *)

Lemma find_invalid_none (files : list UploadFile) :
  Forall (λ f, validate_image (filename f) = true) files →
  List.find (λ f, negb (validate_image (filename f))) files = None.
Proof.
  induction 1 as [|f files Hf _ IH]; simpl; [done|]. by rewrite Hf.
Qed.

Lemma save_files_ok w upload_path (files : list UploadFile) :
  Forall (λ f, save_upload w (path_join upload_path (filename f)) (file f) = Ok ())
    files →
  save_files w upload_path files
  = Ok (map (λ f, path_join upload_path (filename f)) files).
Proof.
  induction 1 as [|f files Hf _ IH]; simpl; [done|].
  rewrite Hf. simpl. rewrite IH. done.
Qed.

(** C7 as stated fails: a manifest that is not empty but holds a file
    whose name has no allowed image extension is refused with the error
    400, and no job is created. *)
Lemma upload_non_image_creates_no_job :
  let files := [ {| filename := "notes.txt"; file := "hello" |} ] in
  let st := Scenario.empty_state in
  files ≠ [] ∧
  upload_images Scenario.world "job-2" 5 files st
    = (HTTPException 400 "Invalid file type: notes.txt. Allowed: ", st) ∧
  db (upload_images Scenario.world "job-2" 5 files st).2 = ∅ ∧
  ¬ ∃ body st' analysis,
      upload_images Scenario.world "job-2" 5 files st = (Return body, st') ∧
      db st' !! upload_analysis_id body = Some analysis ∧
      status analysis = pending.
Proof.
  split_and!; [done|reflexivity|reflexivity|].
  intros (body & st' & analysis & Hup & _). discriminate Hup.
Qed.

(** C7, amended: for every manifest that is not empty and whose file
    names all carry an allowed image extension, when the files are
    stored without an error and the new identifier is not yet in the
    table, [upload_images] adds a job with status pending and the empty
    result ["{}"], which [get_result] reports with no result; the rest
    of the state is unchanged.  For the empty manifest it raises the
    error 400 "No files provided" and creates no job. *)
Theorem upload_creates_pending_job (w : World) (uuid4 : string) (now : Z)
    (st : State) :
  (∀ files,
     files ≠ [] →
     Forall (λ f, validate_image (filename f) = true) files →
     Forall (λ f, save_upload w
                    (path_join (path_join (UPLOAD_DIR w) uuid4) (filename f))
                    (file f) = Ok ()) files →
     db st !! uuid4 = None →
     ∃ st' analysis,
       upload_images w uuid4 now files st
         = (Return {| upload_analysis_id := uuid4; image_count := length files |},
            st') ∧
       db st' = <[uuid4 := analysis]> (db st) ∧
       analysis_id analysis = uuid4 ∧
       status analysis = pending ∧
       json_result analysis = JEmpty ∧
       (length <$> image_paths analysis) = Some (length files) ∧
       get_result uuid4 st'
         = Return {| response_analysis_id := uuid4;
                     response_status := pending;
                     response_result := None;
                     response_created_at := now |} ∧
       background_tasks st' = background_tasks st ∧
       _pipeline_service st' = _pipeline_service st ∧
       vision_calls st' = vision_calls st) ∧
  upload_images w uuid4 now [] st = (HTTPException 400 "No files provided", st).
Proof.
  split; [|reflexivity].
  intros files Hne Hvalid Hsave Hfresh.
  unfold upload_images.
  destruct files as [|f files]; [done|].
  rewrite (find_invalid_none _ Hvalid), (save_files_ok _ _ _ Hsave), Hfresh.
  do 2 eexists. split; [by rewrite length_map|].
  split_and!; try reflexivity.
  - simpl. by rewrite length_map.
  - unfold get_result. simpl. by rewrite lookup_insert_eq.
Qed.

(** Two image files uploaded to the empty server. *)
Lemma upload_creates_pending_job_witness :
  let files := [ {| filename := "a.jpg"; file := "one" |};
                 {| filename := "B.PNG"; file := "two" |} ] in
  ∃ st',
    upload_images Scenario.world "job-2" 5 files Scenario.empty_state
      = (Return {| upload_analysis_id := "job-2"; image_count := 2 |}, st') ∧
    (status <$> db st' !! "job-2") = Some pending ∧
    (json_result <$> db st' !! "job-2") = Some JEmpty.
Proof.
  intros files.
  destruct (proj1 (upload_creates_pending_job Scenario.world "job-2" 5
                     Scenario.empty_state) files)
    as (st' & analysis & Hup & Hdb & _ & Hs & Hj & _).
  - discriminate.
  - repeat constructor.
  - repeat constructor.
  - reflexivity.
  - exists st'. rewrite Hdb, lookup_insert_eq. simpl.
    rewrite Hs, Hj. by split_and!.
Defined.

(** * Further properties *)

(** ** File names *)

(** Lowering neither creates nor removes a character that is not a
    letter. *)
Lemma lower_ascii_eqb (c d : Ascii.ascii) :
  (Ascii.N_of_ascii d < 65 ∨ 122 < Ascii.N_of_ascii d)%N →
  Ascii.eqb (lower_ascii c) d = Ascii.eqb c d.
Proof.
  intros Hd. unfold lower_ascii.
  destruct ((65 <=? Ascii.N_of_ascii c)%N && (Ascii.N_of_ascii c <=? 90)%N) eqn:Hr;
    [|done].
  apply andb_true_iff in Hr as [H1 H2]. apply N.leb_le in H1, H2.
  transitivity false; [|symmetry]; apply Ascii.eqb_neq; intros Heq.
  - apply (f_equal Ascii.N_of_ascii) in Heq.
    rewrite Ascii.N_ascii_embedding in Heq by lia. lia.
  - subst d. lia.
Qed.

Lemma has_char_lower (d : Ascii.ascii) (s : string) :
  (Ascii.N_of_ascii d < 65 ∨ 122 < Ascii.N_of_ascii d)%N →
  has_char d (lower s) = has_char d s.
Proof.
  intros Hd. induction s as [|c s IH]; simpl; [done|].
  by rewrite lower_ascii_eqb, IH.
Qed.

Lemma split_slash_no_slash s :
  has_char "/" s = false → split_slash s = [s].
Proof.
  induction s as [|c s IH]; simpl; [done|].
  intros Hs. apply orb_false_iff in Hs as [Hc Hs].
  rewrite Hc, (IH Hs). done.
Qed.

Lemma split_slash_no_char d s :
  has_char d s = false →
  Forall (λ part, has_char d part = false) (split_slash s).
Proof.
  induction s as [|c s IH]; simpl; [by repeat constructor|].
  intros Hs. apply orb_false_iff in Hs as [Hc Hs]. specialize (IH Hs).
  destruct (Ascii.eqb c "/"); [by constructor|].
  destruct (split_slash s) as [|part parts]; [by repeat constructor; simpl; rewrite Hc|].
  inversion_clear IH. constructor; [|done]. simpl. by rewrite Hc.
Qed.

Lemma rfind_dot_none name i :
  has_char "." name = false → rfind_dot name i = None.
Proof.
  revert i; induction name as [|c name IH]; intros i; simpl; [done|].
  intros Hs. apply orb_false_iff in Hs as [Hc Hs].
  by rewrite (IH _ Hs), Hc.
Qed.

Lemma rfind_dot_last stem rest i :
  has_char "." rest = false →
  rfind_dot (stem ++ String "." rest) i = Some (i + String.length stem)%nat.
Proof.
  intros Hrest. revert i; induction stem as [|c stem IH]; intros i; simpl.
  - rewrite (rfind_dot_none _ _ Hrest). simpl. f_equal. lia.
  - rewrite IH. f_equal. lia.
Qed.

Lemma length_append (s t : string) :
  String.length (s ++ t) = (String.length s + String.length t)%nat.
Proof. induction s as [|c s IH]; simpl; [done|]. by rewrite IH. Qed.

Lemma substring_all s : String.substring 0 (String.length s) s = s.
Proof. induction s as [|c s IH]; simpl; [done|]. by rewrite IH. Qed.

Lemma substring_suffix (s t : string) :
  String.substring (String.length s) (String.length t) (s ++ t) = t.
Proof.
  induction s as [|c s IH]; simpl; [apply substring_all|]. apply IH.
Qed.

Lemma path_name_plain s :
  has_char "/" s = false → s ≠ "" → s ≠ "." → path_name s = s.
Proof.
  intros Hs Hne Hdot. unfold path_name. rewrite (split_slash_no_slash _ Hs). simpl.
  destruct (String.eqb s "") eqn:H1; [by apply String.eqb_eq in H1|].
  destruct (String.eqb s ".") eqn:H2; [by apply String.eqb_eq in H2|].
  done.
Qed.

Lemma has_char_append d (s t : string) :
  has_char d (s ++ t) = has_char d s || has_char d t.
Proof. induction s as [|c s IH]; simpl; [done|]. by rewrite IH, orb_assoc. Qed.

Lemma path_suffix_stem_ext (stem rest : string) :
  stem ≠ "" → has_char "/" stem = false →
  rest ≠ "" → has_char "/" rest = false → has_char "." rest = false →
  path_suffix (stem ++ String "." rest) = String "." rest.
Proof.
  intros Hstem Hslash Hrest Hrslash Hrdot. unfold path_suffix.
  rewrite path_name_plain.
  - rewrite (rfind_dot_last _ _ _ Hrdot), Nat.add_0_l, length_append.
    assert (0 < String.length stem)%nat by (destruct stem; simpl; [done|lia]).
    assert (0 < String.length rest)%nat by (destruct rest; simpl; [done|lia]).
    change (String.length (String "." rest)) with (S (String.length rest)).
    rewrite (proj2 (Nat.ltb_lt 0 _)) by done.
    rewrite (proj2 (Nat.ltb_lt (String.length stem) _)) by lia.
    replace (String.length stem + S (String.length rest) - String.length stem)%nat
      with (String.length (String "." rest)) by (simpl; lia).
    apply substring_suffix.
  - rewrite has_char_append. simpl. by rewrite Hslash, Hrslash.
  - by destruct stem.
  - destruct stem as [|c [|c' stem]]; [done| |done].
    by destruct rest.
Qed.

Lemma lower_cons_inv s c t :
  lower s = String c t → ∃ c' t', s = String c' t' ∧ lower_ascii c' = c ∧ lower t' = t.
Proof. destruct s as [|c' t']; simpl; [done|]. intros [= <- <-]. eauto. Qed.

(** X1: a file name made of a non-empty stem without "/" followed by one
    of the allowed extensions, written in any mix of upper and lower
    case, is accepted by [validate_image]. *)
Theorem validate_image_accepts_allowed_extension (stem ext : string) :
  stem ≠ "" →
  has_char "/" stem = false →
  lower ext ∈ ALLOWED_EXTENSIONS →
  validate_image (stem ++ ext) = true.
Proof.
  intros Hstem Hslash Hext. unfold validate_image.
  assert (Hform : ∃ rest, ext = String "." rest ∧ rest ≠ "" ∧
            has_char "/" rest = false ∧ has_char "." rest = false).
  { assert (Hd : has_char "." (lower ext) = true ∧ has_char "/" (lower ext) = false
               ∧ ∃ t, lower ext = String "." t ∧ t ≠ "" ∧ has_char "." t = false).
    { unfold ALLOWED_EXTENSIONS in Hext.
      repeat (apply elem_of_cons in Hext as [->|Hext];
              [split_and!; [done|done|eexists; split_and!; done]|]).
      by apply elem_of_nil in Hext. }
    destruct Hd as (_ & Hs & t & Ht & Htne & Htdot).
    apply lower_cons_inv in Ht as (c' & t' & -> & Hc & <-).
    assert (c' = "."%char) as ->.
    { apply Ascii.eqb_eq. erewrite <- lower_ascii_eqb by (left; reflexivity).
      by apply Ascii.eqb_eq. }
    exists t'. split_and!; [done|by destruct t'|..].
    - simpl in Hs. by rewrite has_char_lower in Hs by (left; reflexivity).
    - by rewrite has_char_lower in Htdot by (left; reflexivity). }
  destruct Hform as (rest & -> & Hne & Hrs & Hrd).
  rewrite path_suffix_stem_ext by done.
  by apply bool_decide_eq_true.
Qed.

Lemma validate_image_accepts_allowed_extension_witness :
  validate_image ("holiday" ++ ".JpEg") = true.
Proof.
  apply validate_image_accepts_allowed_extension.
  - discriminate.
  - reflexivity.
  - vm_compute. set_solver.
Defined.

Lemma path_name_no_char d s :
  has_char d s = false → has_char d (path_name s) = false.
Proof.
  intros Hs. unfold path_name.
  pose proof (split_slash_no_char d s Hs) as Hall.
  induction (split_slash s) as [|part parts IH]; simpl; [done|].
  inversion_clear Hall as [|?? Hpart Hparts].
  destruct (negb (String.eqb part "" || String.eqb part ".")); simpl; [|by apply IH].
  specialize (IH Hparts).
  by destruct (List.filter _ parts).
Qed.

Lemma rfind_dot_first rest i :
  has_char "." rest = false → rfind_dot (String "." rest) i = Some i.
Proof. intros Hdot. simpl. by rewrite (rfind_dot_none _ _ Hdot). Qed.

(** X2: [validate_image] refuses a file name without a dot, and a name
    whose only dot is its first character, whatever follows: ".png"
    alone is not an image name. *)
Theorem validate_image_needs_a_suffix (filename : string) :
  (has_char "." filename = false → validate_image filename = false) ∧
  (has_char "." filename = false → has_char "/" filename = false →
     validate_image (String "." filename) = false).
Proof.
  split.
  - intros Hdot. unfold validate_image, path_suffix.
    by rewrite (rfind_dot_none _ _ (path_name_no_char _ _ Hdot)).
  - intros Hdot Hslash. unfold validate_image, path_suffix.
    destruct filename as [|c rest]; [done|].
    rewrite path_name_plain; [|simpl in *; by rewrite Hslash|done|done].
    by rewrite (rfind_dot_first _ 0 Hdot).
Qed.

Lemma validate_image_needs_a_suffix_witness :
  validate_image "README" = false ∧ validate_image ".png" = false.
Proof.
  split.
  - by apply (proj1 (validate_image_needs_a_suffix "README")).
  - by apply (proj2 (validate_image_needs_a_suffix "png")).
Defined.

(** ** Upload *)



Lemma find_first_invalid (valid : list UploadFile) f (rest : list UploadFile) :
  Forall (λ f, validate_image (filename f) = true) valid →
  validate_image (filename f) = false →
  List.find (λ f, negb (validate_image (filename f))) (valid ++ f :: rest) = Some f.
Proof.
  intros Hvalid Hf. induction Hvalid as [|g valid Hg _ IH]; simpl.
  - by rewrite Hf.
  - by rewrite Hg.
Qed.

(** X4: when a file of the manifest has a name that [validate_image]
    refuses, [upload_images] raises the error 400 naming the first such
    file, whether or not the files could be stored, and the state is
    unchanged. *)
Theorem upload_images_names_first_invalid_file (w : World) (uuid4 : string)
    (now : Z) (valid : list UploadFile) (f : UploadFile)
    (rest : list UploadFile) (st : State) :
  Forall (λ f, validate_image (filename f) = true) valid →
  validate_image (filename f) = false →
  upload_images w uuid4 now (valid ++ f :: rest) st
  = (HTTPException 400 ("Invalid file type: " ++ filename f ++ ". Allowed: "), st).
Proof.
  intros Hvalid Hf. unfold upload_images.
  rewrite (find_first_invalid _ _ _ Hvalid Hf).
  by destruct valid.
Qed.

Lemma upload_images_names_first_invalid_file_witness :
  upload_images Scenario.world "job-2" 5
    [ {| filename := "a.jpg"; file := "one" |};
      {| filename := "notes.txt"; file := "two" |};
      {| filename := "b.gif"; file := "three" |} ] Scenario.empty_state
  = (HTTPException 400 "Invalid file type: notes.txt. Allowed: ",
     Scenario.empty_state).
Proof.
  apply (upload_images_names_first_invalid_file Scenario.world "job-2" 5
           [ {| filename := "a.jpg"; file := "one" |} ]
           {| filename := "notes.txt"; file := "two" |}
           [ {| filename := "b.gif"; file := "three" |} ]).
  - repeat constructor.
  - reflexivity.
Defined.



(** ** The pipeline service *)

Lemma pipeline_idempotent w self :
  (pipeline w (pipeline w self).2).2 = (pipeline w self).2.
Proof.
  unfold pipeline.
  destruct (_pipeline self) as [p|] eqn:Hp; simpl; [by rewrite Hp|].
  destruct (ImagePipeline_new w (device self)) as [p|e] eqn:Hn; simpl; [done|].
  by rewrite Hp, Hn.
Qed.

Lemma analyze_step_service w l img_path :
  service (analyze_step w l img_path)
  = if path_exists w img_path then (pipeline w (service l)).2 else service l.
Proof.
  unfold analyze_step. destruct (path_exists w img_path); simpl; [|done].
  destruct (pipeline w (service l)) as [[p|e] self]; simpl; [|done].
  by destruct (process_image w p img_path).
Qed.

Lemma analyze_loop_service w image_paths l :
  service (fold_left (analyze_step w) image_paths l)
  = if existsb (path_exists w) image_paths
    then (pipeline w (service l)).2 else service l.
Proof.
  revert l; induction image_paths as [|p image_paths IH]; intros l; [done|].
  simpl. rewrite IH, analyze_step_service.
  destruct (path_exists w p); simpl; [|done].
  rewrite pipeline_idempotent. by destruct (existsb _ _).
Qed.

Lemma analyze_step_calls w l img_path :
  calls (analyze_step w l img_path)
  = (calls l ++
     match engine w (service l) with
     | Ok _ => if path_exists w img_path then [img_path] else []
     | Raise _ => []
     end)%list.
Proof.
  unfold analyze_step.
  destruct (pipeline_engine w (service l)) as [H1 _]. rewrite <- H1.
  destruct (path_exists w img_path); simpl.
  - destruct (pipeline w (service l)) as [[p|e] self]; simpl;
      [|by rewrite app_nil_r].
    by destruct (process_image w p img_path).
  - destruct (pipeline w (service l)).1; by rewrite app_nil_r.
Qed.

Lemma analyze_loop_calls w image_paths l :
  calls (fold_left (analyze_step w) image_paths l)
  = (calls l ++
     match engine w (service l) with
     | Ok _ => List.filter (path_exists w) image_paths
     | Raise _ => []
     end)%list.
Proof.
  revert l; induction image_paths as [|p image_paths IH]; intros l; simpl.
  - destruct (engine w (service l)); by rewrite app_nil_r.
  - rewrite IH, analyze_step_calls.
    destruct (analyze_step_spec w l p) as [_ ->].
    destruct (engine w (service l)); [|by rewrite app_nil_r].
    rewrite <- (assoc app). by destruct (path_exists w p).
Qed.

(** X6: the models are loaded on demand and at most once.  After
    [analyze_images] the service is the one obtained by evaluating
    [self.pipeline] once if some image of the list exists, and is
    unchanged otherwise: a pipeline already loaded is kept and never
    built again, no pipeline is built when no image exists, a pipeline
    built during the run is kept for the next run, and when the
    constructor raises nothing is kept, so that the next run tries
    again. *)
Theorem pipeline_loaded_once_on_demand (w : World) (self : PipelineService)
    (image_paths : list string) :
  let self' := service (analyze_images w self image_paths) in
  self' = (if existsb (path_exists w) image_paths
           then (pipeline w self).2 else self) ∧
  (∀ p, _pipeline self = Some p → self' = self) ∧
  (existsb (path_exists w) image_paths = false → self' = self) ∧
  (∀ p, _pipeline self = None → ImagePipeline_new w (device self) = Ok p →
     existsb (path_exists w) image_paths = true →
     self' = {| device := device self; _pipeline := Some p |}) ∧
  (∀ e, _pipeline self = None → ImagePipeline_new w (device self) = Raise e →
     self' = self).
Proof.
  intros self'.
  assert (Hs : self' = (if existsb (path_exists w) image_paths
                        then (pipeline w self).2 else self)).
  { subst self'. unfold analyze_images. by rewrite analyze_loop_service. }
  split_and!; [done|..].
  - intros p Hp. rewrite Hs. unfold pipeline. rewrite Hp.
    by destruct (existsb _ _).
  - intros He. by rewrite Hs, He.
  - intros p Hp Hn He. rewrite Hs, He. unfold pipeline. by rewrite Hp, Hn.
  - intros e Hp Hn. rewrite Hs. unfold pipeline. rewrite Hp, Hn.
    by destruct (existsb _ _).
Qed.

Lemma pipeline_loaded_once_on_demand_witness :
  let self := get_pipeline_service Scenario.empty_state in
  service (analyze_images Scenario.world self ["missing.jpg"; "a.jpg"])
    = {| device := "cpu"; _pipeline := Some Scenario.models |} ∧
  service (analyze_images Scenario.world self ["missing.jpg"]) = self ∧
  service (analyze_images Scenario.world_no_engine self ["a.jpg"]) = self.
Proof.
  intros self.
  destruct (pipeline_loaded_once_on_demand Scenario.world self
              ["missing.jpg"; "a.jpg"]) as (_ & _ & _ & Hload & _).
  destruct (pipeline_loaded_once_on_demand Scenario.world self
              ["missing.jpg"]) as (_ & _ & Hnone & _).
  destruct (pipeline_loaded_once_on_demand Scenario.world_no_engine self
              ["a.jpg"]) as (_ & _ & _ & _ & Hfail).
  split_and!.
  - exact (Hload Scenario.models eq_refl eq_refl eq_refl).
  - exact (Hnone eq_refl).
  - exact (Hfail "model download failed" eq_refl eq_refl).
Defined.

Lemma analyze_images_calls w self image_paths :
  calls (analyze_images w self image_paths)
  = match engine w self with
    | Ok _ => List.filter (path_exists w) image_paths
    | Raise _ => []
    end.
Proof. unfold analyze_images. by rewrite analyze_loop_calls. Qed.

(** X7: [analyze_images] runs the vision engine on exactly the images
    of the list that exist on disk, once each and in the order of the
    list, whether or not processing them raises; it runs it on no image
    when the pipeline cannot be built. *)
Theorem vision_engine_runs_on_existing_images (w : World)
    (self : PipelineService) (image_paths : list string) :
  calls (analyze_images w self image_paths)
  = match engine w self with
    | Ok _ => List.filter (path_exists w) image_paths
    | Raise _ => []
    end.
Proof.
  unfold analyze_images. rewrite analyze_loop_calls. simpl.
  by destruct (engine w self).
Qed.

(** ** Starting and running jobs *)

Lemma start_on_completed_noop_state analysis_id st analysis :
  db st !! analysis_id = Some analysis →
  status analysis = completed →
  start_analysis analysis_id st
  = (Return {| start_analysis_id := analysis_id;
               start_status := completed;
               message := "Analysis already completed. Use /api/result/{analysis_id} to get results." |},
     st).
Proof.
  intros Hrow Hs. unfold start_analysis. rewrite Hrow, Hs.
  by repeat case_decide.
Qed.


(** X8: [start_analysis] touches nothing but the queue of background
    tasks.  When it raises, the state is unchanged.  When it answers
    "completed", the row is completed and the state is unchanged.  When
    it answers "processing", the row is pending or failed, has a
    non-empty list of image paths, and exactly one task, for this
    identifier and these paths, is added at the end of the queue. *)
Theorem start_analysis_only_queues (analysis_id : string) (st : State) :
  match start_analysis analysis_id st with
  | (HTTPException _ _, st') => st' = st
  | (Return body, st') =>
      start_analysis_id body = analysis_id ∧
      db st' = db st ∧
      _pipeline_service st' = _pipeline_service st ∧
      vision_calls st' = vision_calls st ∧
      ((start_status body = completed ∧ st' = st ∧
        (status <$> db st !! analysis_id) = Some completed) ∨
       (start_status body = processing ∧
        ∃ analysis paths,
          db st !! analysis_id = Some analysis ∧
          (status analysis = pending ∨ status analysis = failed) ∧
          image_paths analysis = Some paths ∧ paths ≠ [] ∧
          background_tasks st'
          = (background_tasks st ++ [(analysis_id, paths)])%list))
  end.
Proof.
  unfold start_analysis.
  destruct (db st !! analysis_id) as [analysis|] eqn:Hrow; [|done].
  destruct (decide (status analysis = processing)) as [|Hp]; [done|].
  destruct (decide (status analysis = completed)) as [Hc|Hc].
  - split_and!; try done. left. simpl. by rewrite Hc.
  - destruct (image_paths analysis) as [[|p paths]|] eqn:Hi; simpl; try done.
    split_and!; try done. right. split; [done|].
    exists analysis, (p :: paths). split_and!; try done.
    destruct (status analysis); auto; done.
Qed.

Lemma run_analysis_background_tasks w now analysis_id image_paths st :
  background_tasks (run_analysis_background w now analysis_id image_paths st)
  = background_tasks st.
Proof.
  unfold run_analysis_background.
  destruct (db st !! analysis_id) eqn:Hrow; [|done].
  unfold run_pipeline_update_results, update_status_processing.
  rewrite Hrow. simpl. by rewrite lookup_insert_eq.
Qed.

(** X9: a pending or failed job with images, started on a server with
    no other task waiting, is completed by the next background run: the
    call is answered "processing", the run stores the result of
    [analyze_images] on the stored paths in place of what the row held
    (the error text of a failed job included), the queue is empty
    again, and [get_result] reports the job completed with that
    result. *)
Theorem started_job_runs_to_completion (w : World) (now : Z)
    (analysis_id : string) (st : State) (analysis : Analysis)
    (paths : list string) :
  db st !! analysis_id = Some analysis →
  status analysis = pending ∨ status analysis = failed →
  image_paths analysis = Some paths → paths ≠ [] →
  background_tasks st = [] →
  let result :=
    aggregated (analyze_images w (get_pipeline_service st) paths) in
  let st1 := (start_analysis analysis_id st).2 in
  let st2 := run_next_task w now st1 in
  (∃ body, (start_analysis analysis_id st).1 = Return body ∧
           start_status body = processing) ∧
  db st2 !! analysis_id
    = Some (update_row analysis (JAggregated result) completed now) ∧
  background_tasks st2 = [] ∧
  get_result analysis_id st2
    = Return {| response_analysis_id := analysis_id;
                response_status := completed;
                response_result := Some result;
                response_created_at := created_at analysis |}.
Proof.
  intros Hrow Hs Hi Hne Htasks result st1 st2.
  assert (Hstart : start_analysis analysis_id st
    = (Return {| start_analysis_id := analysis_id;
                 start_status := processing;
                 message := "Analysis started for " ++ pretty (length paths)
                   ++ " images. Poll /api/result/" ++ analysis_id
                   ++ " for results." |},
       {| db := db st;
          background_tasks := [(analysis_id, paths)];
          _pipeline_service := _pipeline_service st;
          vision_calls := vision_calls st |})).
  { unfold start_analysis. rewrite Hrow, Hi, Htasks.
    destruct paths as [|p paths]; [done|].
    by destruct Hs as [-> | ->]. }
  assert (Hst2 : st2 = run_analysis_background w now analysis_id paths
    {| db := db st; background_tasks := [];
       _pipeline_service := _pipeline_service st;
       vision_calls := vision_calls st |}).
  { subst st2 st1. by rewrite Hstart. }
  assert (Hdb : db st2 !! analysis_id
    = Some (update_row analysis (JAggregated result) completed now)).
  { rewrite Hst2. by rewrite (run_analysis_background_row _ _ _ _ _ analysis). }
  split_and!.
  - rewrite Hstart. by eexists.
  - done.
  - by rewrite Hst2, run_analysis_background_tasks.
  - unfold get_result. by rewrite Hdb.
Qed.

Lemma started_job_runs_to_completion_witness :
  let st := Scenario.state_with failed (JError "boom") in
  let st2 := run_next_task Scenario.world 9 (start_analysis "job-1" st).2 in
  (status <$> db st2 !! "job-1") = Some completed ∧
  background_tasks st2 = [] ∧
  (response_status <$> match get_result "job-1" st2 with
                       | Return r => Some r
                       | HTTPException _ _ => None
                       end) = Some completed.
Proof.
  intros st st2.
  destruct (started_job_runs_to_completion Scenario.world 9 "job-1" st
              (Scenario.job failed (JError "boom")) ["a.jpg"; "b.jpg"])
    as (_ & Hdb & Htasks & Hres); [reflexivity|by right|reflexivity|done|reflexivity|].
  subst st2. rewrite Hdb, Htasks, Hres. done.
Defined.

(** X10: a background run changes one row only.  Rows of other jobs,
    and the queue of tasks, are as before; when the row is absent the
    whole state is unchanged; when it is present its identifier, image
    paths and creation time are kept, [updated_at] is the time of the
    run, and the record of engine runs grows by the images of the task
    that exist on disk (by nothing when the pipeline cannot be
    built). *)
Theorem run_analysis_background_frame (w : World) (now : Z)
    (analysis_id : string) (image_paths : list string) (st : State) :
  let st' := run_analysis_background w now analysis_id image_paths st in
  (∀ id, id ≠ analysis_id → db st' !! id = db st !! id) ∧
  background_tasks st' = background_tasks st ∧
  (db st !! analysis_id = None → st' = st) ∧
  (∀ analysis, db st !! analysis_id = Some analysis →
     ∃ analysis', db st' !! analysis_id = Some analysis' ∧
       row_id analysis' = row_id analysis ∧
       row_image_paths analysis' = row_image_paths analysis ∧
       created_at analysis' = created_at analysis ∧
       updated_at analysis' = now ∧
       vision_calls st'
       = (vision_calls st ++
          match engine w (get_pipeline_service st) with
          | Ok _ => List.filter (path_exists w) image_paths
          | Raise _ => []
          end)%list).
Proof.
  intros st'. split_and!.
  - intros id Hid. subst st'. unfold run_analysis_background.
    destruct (db st !! analysis_id) eqn:Hrow; [|done].
    unfold run_pipeline_update_results, update_status_processing.
    rewrite Hrow. simpl. rewrite lookup_insert_eq. simpl.
    by rewrite !lookup_insert_ne.
  - apply run_analysis_background_tasks.
  - intros Hrow. subst st'. unfold run_analysis_background. by rewrite Hrow.
  - intros analysis Hrow. eexists. split.
    + subst st'. by apply run_analysis_background_row.
    + split_and!; try done.
      subst st'. unfold run_analysis_background. rewrite Hrow.
      unfold run_pipeline_update_results, update_status_processing.
      rewrite Hrow. simpl. rewrite lookup_insert_eq. simpl.
      by rewrite analyze_images_calls.
Qed.

Lemma run_analysis_background_frame_witness :
  let st := Cases.three_jobs in
  let st' := run_analysis_background Scenario.world 40 "j1" ["a.jpg"; "missing.jpg"] st in
  db st' !! "j2" = db st !! "j2" ∧
  (updated_at <$> db st' !! "j1") = Some 40%Z ∧
  (created_at <$> db st' !! "j1") = Some 10%Z ∧
  vision_calls st' = ["a.jpg"] ∧
  run_analysis_background Scenario.world 40 "j9" ["a.jpg"] st = st.
Proof.
  intros st st'.
  destruct (run_analysis_background_frame Scenario.world 40 "j1"
              ["a.jpg"; "missing.jpg"] st) as (Hother & _ & _ & Hrow).
  destruct (Hrow (Cases.row "j1" pending JEmpty 10) eq_refl)
    as (a' & Ha' & _ & _ & Hc & Hu & Hcalls).
  destruct (run_analysis_background_frame Scenario.world 40 "j9" ["a.jpg"] st)
    as (_ & _ & Hnone & _).
  split_and!.
  - by apply Hother.
  - subst st'. rewrite Ha'. simpl. by rewrite Hu.
  - subst st'. rewrite Ha'. simpl. by rewrite Hc.
  - exact Hcalls.
  - by apply Hnone.
Defined.

(** ** Reading jobs *)





(** X13: from upload to result.  On a server with no task waiting, a
    manifest of accepted file names that is stored without error under
    a new identifier, then started, then run, ends as a completed job:
    [get_result] and [get_raw_result] give the fold over the stored
    images that exist and are processed without an exception, no task
    is left, and a further [start_analysis] answers "completed" and
    changes nothing. *)
Theorem upload_start_run_result (w : World) (uuid4 : string) (now now' : Z)
    (files : list UploadFile) (st : State) :
  files ≠ [] →
  Forall (λ f, validate_image (filename f) = true) files →
  Forall (λ f, save_upload w
                 (path_join (path_join (UPLOAD_DIR w) uuid4) (filename f))
                 (file f) = Ok ()) files →
  db st !! uuid4 = None →
  background_tasks st = [] →
  let st1 := (upload_images w uuid4 now files st).2 in
  let st2 := (start_analysis uuid4 st1).2 in
  let st3 := run_next_task w now' st2 in
  let saved_paths :=
    (λ f, path_join (path_join (UPLOAD_DIR w) uuid4) (filename f)) <$> files in
  let result :=
    fold_batches new_aggregated
      (omap (image_batch w (get_pipeline_service st)) saved_paths) in
  get_result uuid4 st3
    = Return {| response_analysis_id := uuid4;
                response_status := completed;
                response_result := Some result;
                response_created_at := now |} ∧
  get_raw_result uuid4 st3 = Return (JAggregated result) ∧
  background_tasks st3 = [] ∧
  (∃ body, start_analysis uuid4 st3 = (Return body, st3) ∧
           start_status body = completed).
Proof.
  intros Hne Hvalid Hsave Hfresh Htasks st1 st2 st3 saved_paths result.
  pose (analysis := {| analysis_id := uuid4; json_result := JEmpty;
                       image_paths := Some saved_paths; status := pending;
                       created_at := now; updated_at := now |}).
  assert (Hst1 : st1 = {| db := <[uuid4 := analysis]> (db st);
                          background_tasks := [];
                          _pipeline_service := _pipeline_service st;
                          vision_calls := vision_calls st |}).
  { subst st1. unfold upload_images.
    destruct files as [|f files]; [done|].
    rewrite (find_invalid_none _ Hvalid), (save_files_ok _ _ _ Hsave), Hfresh.
    simpl. by rewrite Htasks. }
  assert (Hrow1 : db st1 !! uuid4 = Some analysis)
    by (rewrite Hst1; simpl; apply lookup_insert_eq).
  assert (Hsaved : saved_paths ≠ []) by (subst saved_paths; by destruct files).
  assert (Htasks1 : background_tasks st1 = []) by by rewrite Hst1.
  destruct (started_job_runs_to_completion w now' uuid4 st1 analysis saved_paths
              Hrow1 (or_introl eq_refl) eq_refl Hsaved Htasks1)
    as (_ & Hdb & Htasks3 & Hres).
  fold st2 st3 in Hdb, Htasks3, Hres.
  assert (Hagg : aggregated (analyze_images w (get_pipeline_service st1) saved_paths)
                 = result).
  { rewrite analyze_images_spec. subst result. by rewrite Hst1. }
  rewrite Hagg in Hdb, Hres.
  split_and!; [done| |done|].
  - unfold get_raw_result. by rewrite Hdb.
  - eexists. split; [by apply (start_on_completed_noop_state uuid4 st3 _ Hdb)|].
    reflexivity.
Qed.

Lemma upload_start_run_result_witness :
  let files := [ {| filename := "a.jpg"; file := "one" |} ] in
  let st1 := (upload_images Scenario.world "job-2" 5 files Scenario.empty_state).2 in
  let st3 := run_next_task Scenario.world 6 (start_analysis "job-2" st1).2 in
  (response_status <$> match get_result "job-2" st3 with
                       | Return r => Some r
                       | HTTPException _ _ => None
                       end) = Some completed ∧
  background_tasks st3 = [].
Proof.
  intros files st1 st3.
  destruct (upload_start_run_result Scenario.world "job-2" 5 6 files
              Scenario.empty_state) as (Hres & _ & Htasks & _).
  - discriminate.
  - repeat constructor.
  - repeat constructor.
  - reflexivity.
  - reflexivity.
  - subst st3 st1. by rewrite Hres, Htasks.
Defined.

(** ** Listing jobs *)

Lemma StronglySorted_take {A} (R : relation A) (l : list A) n :
  StronglySorted R l → StronglySorted R (take n l).
Proof.
  intros Hl. rewrite <- (take_drop n l) in Hl.
  by apply StronglySorted_app_1_l in Hl.
Qed.

Lemma sql_limit_sorted {A} (R : relation A) limit (l : list A) :
  StronglySorted R l → StronglySorted R (sql_limit limit l).
Proof.
  intros Hl. unfold sql_limit. destruct (limit <? 0)%Z; [done|].
  by apply StronglySorted_take.
Qed.

Lemma length_all_rows st : length (all_rows st) = size (db st).
Proof. unfold all_rows. by rewrite length_fmap, length_map_to_list. Qed.

(** X14: [list_analyses] lists the jobs newest first: the creation
    times of the entries never increase along the list.  With a limit
    that is not negative the list has [limit] entries, or as many as
    there are jobs if there are fewer; a negative limit sets no bound
    (SQLite) and every job is listed. *)
Theorem list_analyses_newest_first (limit : Z) (st : State) :
  StronglySorted (λ x y, (summary_created_at y ≤ summary_created_at x)%Z)
    (list_analyses limit st) ∧
  length (list_analyses limit st)
  = (if (limit <? 0)%Z then size (db st)
     else Z.to_nat limit `min` size (db st)).
Proof.
  unfold list_analyses, query_newest. split.
  - apply (StronglySorted_fmap _ newest_first); [done|].
    apply sql_limit_sorted, StronglySorted_merge_sort; apply _.
  - rewrite length_fmap. unfold sql_limit.
    destruct (limit <? 0)%Z.
    + by rewrite merge_sort_Permutation, length_all_rows.
    + by rewrite length_take, merge_sort_Permutation, length_all_rows.
Qed.

(** X15: every entry of [list_analyses] is the summary of a row of the
    table, and when the limit is negative or at least the number of
    jobs, the list holds the summary of every row exactly once. *)
Theorem list_analyses_lists_rows (limit : Z) (st : State) :
  (∀ e, e ∈ list_analyses limit st →
     ∃ id a, db st !! id = Some a ∧ e = list_entry a) ∧
  ((limit < 0)%Z ∨ (Z.of_nat (size (db st)) ≤ limit)%Z →
     list_analyses limit st ≡ₚ list_entry <$> all_rows st).
Proof.
  unfold list_analyses, query_newest. split.
  - intros e He. apply list_elem_of_fmap in He as (a & -> & Ha).
    assert (Hin : a ∈ all_rows st).
    { rewrite <- (merge_sort_Permutation newest_first).
      unfold sql_limit in Ha. destruct (limit <? 0)%Z; [done|].
      by eapply sublist_subseteq; [apply sublist_take|]. }
    unfold all_rows in Hin. apply list_elem_of_fmap in Hin as ([id a'] & -> & Hin).
    apply elem_of_map_to_list in Hin. by exists id, a'.
  - intros Hl. f_equiv. unfold sql_limit.
    destruct (limit <? 0)%Z eqn:Hneg.
    + apply merge_sort_Permutation.
    + apply Z.ltb_ge in Hneg.
      rewrite take_ge; [apply merge_sort_Permutation|].
      rewrite merge_sort_Permutation, length_all_rows. lia.
Qed.

Lemma list_analyses_lists_rows_witness :
  list_analyses 5 Cases.three_jobs ≡ₚ list_entry <$> all_rows Cases.three_jobs ∧
  (summary_analysis_id <$> list_analyses 5 Cases.three_jobs) = ["j2"; "j3"; "j1"].
Proof.
  split; [|reflexivity].
  apply (proj2 (list_analyses_lists_rows 5 Cases.three_jobs)).
  right. vm_compute. discriminate.
Defined.

(** ** Chat *)

Lemma chat_logs_exchange llm now analysis_id question st (chat_logs : list ChatLog) :
  match chat llm now analysis_id question st chat_logs with
  | (HTTPException _ _, chat_logs') => chat_logs' = chat_logs
  | (Return body, chat_logs') =>
      ∃ analysis,
        db st !! analysis_id = Some analysis ∧
        status analysis = completed ∧
        chat_analysis_id body = analysis_id ∧
        chat_question body = question ∧
        chat_answer body = answer_question llm (json_result analysis) question ∧
        chat_created_at body = now ∧
        chat_logs'
        = (chat_logs ++ [ {| log_analysis_id := analysis_id;
                             log_question := question;
                             log_answer := chat_answer body;
                             log_created_at := now |} ])%list
  end.
Proof.
  unfold chat.
  destruct (db st !! analysis_id) as [analysis|]; [|done].
  case_decide as Hs; [done|].
  exists analysis. split_and!; try done;
    by destruct (decide (status analysis = completed)).
Qed.

(** X16: [chat] writes at most one log.  When it raises, the table of
    logs is unchanged.  When it returns, the job is completed, the
    answer is the one of the language model for the stored result and
    the question, and exactly one log, holding the identifier, the
    question, that answer and the time of the call, is added after the
    logs already there. *)
Theorem chat_logs_one_exchange (llm : LLMService) (now : Z)
    (analysis_id question : string) (st : State) (chat_logs : list ChatLog) :
  match chat llm now analysis_id question st chat_logs with
  | (HTTPException _ _, chat_logs') => chat_logs' = chat_logs
  | (Return body, chat_logs') =>
      ∃ analysis,
        db st !! analysis_id = Some analysis ∧
        status analysis = completed ∧
        chat_analysis_id body = analysis_id ∧
        chat_question body = question ∧
        chat_answer body = answer_question llm (json_result analysis) question ∧
        chat_created_at body = now ∧
        chat_logs'
        = (chat_logs ++ [ {| log_analysis_id := analysis_id;
                             log_question := question;
                             log_answer := chat_answer body;
                             log_created_at := now |} ])%list
  end.
Proof.
  unfold chat.
  destruct (db st !! analysis_id) as [analysis|]; [|done].
  case_decide as Hs; [done|].
  exists analysis. split_and!; try done;
    by destruct (decide (status analysis = completed)).
Qed.

(** X17: a failure of the language model does not fail [chat].  When
    the call to the model raises, [chat] on a completed job still
    returns, its answer is the fixed apology followed by the text of
    the exception, and this answer is stored in the log like any
    other. *)
Theorem chat_answers_when_llm_fails (llm : LLMService) (now : Z)
    (analysis_id question e : string) (st : State) (chat_logs : list ChatLog)
    (analysis : Analysis) :
  db st !! analysis_id = Some analysis →
  status analysis = completed →
  (∀ user_message, completion llm user_message = Raise e) →
  let apology := "죄송합니다. 답변을 생성하는 중 오류가 발생했습니다: " ++ e in
  chat llm now analysis_id question st chat_logs
  = (Return {| chat_analysis_id := analysis_id;
               chat_question := question;
               chat_answer := apology;
               chat_created_at := now |},
     (chat_logs ++ [ {| log_analysis_id := analysis_id;
                        log_question := question;
                        log_answer := apology;
                        log_created_at := now |} ])%list).
Proof.
  intros Hrow Hs Hllm apology. unfold chat. rewrite Hrow.
  rewrite decide_False by (by intros []).
  unfold answer_question. by rewrite Hllm.
Qed.

Lemma chat_answers_when_llm_fails_witness :
  (chat_answer <$> match (chat Cases.llm_down 50 "j2" "how many?"
                            Cases.three_jobs []).1 with
                   | Return body => Some body
                   | HTTPException _ _ => None
                   end)
  = Some "죄송합니다. 답변을 생성하는 중 오류가 발생했습니다: Connection error".
Proof.
  by rewrite (chat_answers_when_llm_fails Cases.llm_down 50 "j2" "how many?"
                "Connection error" Cases.three_jobs []
                (Cases.row "j2" completed (JAggregated Cases.two_faces) 30)
                eq_refl eq_refl (λ _, eq_refl)).
Defined.

(** X18: [get_chat_history] gives the exchanges of the job asked for,
    all of them and nothing else, oldest first: the list is a
    rearrangement of the logs that carry the identifier, and the times
    never decrease along it. *)
Theorem chat_history_oldest_first (analysis_id : string) (st : State)
    (chat_logs : list ChatLog) (history : list ChatHistoryItem) :
  get_chat_history analysis_id st chat_logs = Return history →
  StronglySorted (λ x y, (item_created_at x ≤ item_created_at y)%Z) history ∧
  history ≡ₚ
    history_item <$>
      List.filter (λ log, String.eqb (log_analysis_id log) analysis_id) chat_logs.
Proof.
  unfold get_chat_history.
  destruct (db st !! analysis_id); [|done]. intros [= <-].
  unfold query_logs. split.
  - apply (StronglySorted_fmap _ oldest_first); [done|].
    apply StronglySorted_merge_sort; apply _.
  - f_equiv. apply merge_sort_Permutation.
Qed.

Lemma query_logs_other analysis_id (chat_logs : list ChatLog) log :
  log_analysis_id log ≠ analysis_id →
  query_logs analysis_id (chat_logs ++ [log]) = query_logs analysis_id chat_logs.
Proof.
  intros Hne. unfold query_logs. rewrite List.filter_app. simpl.
  destruct (String.eqb (log_analysis_id log) analysis_id) eqn:He.
  - by apply String.eqb_eq in He.
  - by rewrite app_nil_r.
Qed.

(** X19: an exchange made with [chat] shows in the history of its job
    and in no other: after [chat] has returned, [get_chat_history] of
    the same job holds the question with its answer and has one item
    more than before, and the history of every other job is as
    before. *)
Theorem chat_then_history (llm : LLMService) (now : Z)
    (analysis_id question : string) (st : State)
    (chat_logs chat_logs' : list ChatLog) (body : ChatResponse) :
  chat llm now analysis_id question st chat_logs = (Return body, chat_logs') →
  (∃ before after,
     get_chat_history analysis_id st chat_logs = Return before ∧
     get_chat_history analysis_id st chat_logs' = Return after ∧
     {| item_question := question; item_answer := chat_answer body;
        item_created_at := now |} ∈ after ∧
     length after = S (length before)) ∧
  (∀ other, other ≠ analysis_id →
     get_chat_history other st chat_logs' = get_chat_history other st chat_logs).
Proof.
  intros Hchat.
  pose proof (chat_logs_exchange llm now analysis_id question st chat_logs) as H.
  rewrite Hchat in H. destruct H as (analysis & Hrow & _ & _ & _ & _ & _ & ->).
  set (log := {| log_analysis_id := analysis_id; log_question := question;
                 log_answer := chat_answer body; log_created_at := now |}).
  split.
  - unfold get_chat_history. rewrite Hrow. do 2 eexists.
    split; [done|]. split; [done|]. unfold query_logs.
    rewrite List.filter_app. simpl. rewrite String.eqb_refl.
    split.
    + apply (list_elem_of_fmap_2 history_item _ log).
      rewrite merge_sort_Permutation. set_solver.
    + rewrite !length_fmap, !merge_sort_Permutation, length_app. simpl. lia.
  - intros other Hne. unfold get_chat_history.
    destruct (db st !! other); [|done].
    by rewrite query_logs_other.
Qed.

Lemma chat_then_history_witness :
  let r := chat Cases.llm 50 "j2" "how many?" Cases.three_jobs [] in
  get_chat_history "j2" Cases.three_jobs r.2
    = Return [ {| item_question := "how many?"; item_answer := "2 faces";
                  item_created_at := 50 |} ] ∧
  get_chat_history "j1" Cases.three_jobs r.2
    = get_chat_history "j1" Cases.three_jobs [].
Proof.
  intros r.
  destruct (chat_then_history Cases.llm 50 "j2" "how many?" Cases.three_jobs
              [] r.2 {| chat_analysis_id := "j2"; chat_question := "how many?";
                        chat_answer := "2 faces"; chat_created_at := 50 |}
              eq_refl) as [_ Hother].
  split; [reflexivity|]. by apply Hother.
Defined.

Lemma chat_history_oldest_first_witness :
  let chat_logs :=
    [ {| log_analysis_id := "j2"; log_question := "second"; log_answer := "b";
         log_created_at := 70 |};
      {| log_analysis_id := "j1"; log_question := "other"; log_answer := "c";
         log_created_at := 65 |};
      {| log_analysis_id := "j2"; log_question := "first"; log_answer := "a";
         log_created_at := 60 |} ] in
  ∃ history,
    get_chat_history "j2" Cases.three_jobs chat_logs = Return history ∧
    (item_question <$> history) = ["first"; "second"] ∧
    StronglySorted (λ x y, (item_created_at x ≤ item_created_at y)%Z) history.
Proof.
  intros chat_logs. eexists. split; [reflexivity|]. split; [reflexivity|].
  exact (proj1 (chat_history_oldest_first "j2" Cases.three_jobs chat_logs _ eq_refl)).
Defined.


(** ** Directories *)

Lemma fold_count_labels faces acc :
  {| total_faces := total_faces acc + length faces;
     gender_counts :=
       (fold_left count_labels faces (gender_counts acc, age_group_counts acc)).1;
     age_group_counts :=
       (fold_left count_labels faces (gender_counts acc, age_group_counts acc)).2 |}
  = fold_faces acc faces.
Proof.
  revert acc; induction faces as [|f faces IH]; intros acc.
  - simpl. destruct acc; simpl. f_equal. lia.
  - rewrite fold_faces_cons, <- IH. simpl. f_equal. lia.
Qed.

Lemma process_directory_step_spec w p acc img_path :
  process_directory_step w p acc img_path
  = match directory_batch w p img_path with
    | Some face_results => fold_faces acc face_results
    | None => acc
    end.
Proof.
  unfold process_directory_step, directory_batch.
  destruct (process_image w p img_path); [|done]. apply fold_count_labels.
Qed.

Lemma process_directory_loop w p image_paths acc :
  fold_left (process_directory_step w p) image_paths acc
  = fold_batches acc (omap (directory_batch w p) image_paths).
Proof.
  revert acc; induction image_paths as [|path image_paths IH]; intros acc; [done|].
  simpl. rewrite IH, process_directory_step_spec. csimpl.
  by destruct (directory_batch w p path).
Qed.

Lemma process_directory_spec w disk p input_dir :
  process_directory w disk p input_dir
  = match directory_images disk input_dir with
    | [] => None
    | image_paths =>
        Some (fold_batches new_aggregated (omap (directory_batch w p) image_paths))
    end.
Proof.
  unfold process_directory.
  destruct (directory_images disk input_dir) as [|path paths]; [done|].
  by rewrite process_directory_loop.
Qed.

Lemma directory_batch_image_batch w p dev img_path :
  path_exists w img_path = true →
  image_batch w {| device := dev; _pipeline := Some p |} img_path
  = directory_batch w p img_path.
Proof. intros He. unfold image_batch, directory_batch. by rewrite He. Qed.

Lemma omap_image_batch_exists w p dev (image_paths : list string) :
  Forall (λ path, path_exists w path = true) image_paths →
  omap (image_batch w {| device := dev; _pipeline := Some p |}) image_paths
  = omap (directory_batch w p) image_paths.
Proof.
  induction 1 as [|x l Hx _ IH]; [done|]. csimpl.
  by rewrite (directory_batch_image_batch _ _ _ _ Hx), IH.
Qed.

Lemma directory_batches_age_recognized w p image_paths :
  Forall (λ r, age_recognized r = true)
    (concat (omap (directory_batch w p) image_paths)).
Proof.
  induction image_paths as [|path image_paths IH]; csimpl; [constructor|].
  unfold directory_batch at 1.
  destruct (process_image w p path) as [fs|] eqn:Hp; [|done].
  simpl. apply Forall_app; split; [|done].
  by apply process_image_age_recognized in Hp.
Qed.

(** X20: [process_directory] returns [None] for a directory in which no
    image is found.  Otherwise it returns the fold over the images that
    are processed without an exception; this is the dictionary that
    [analyze_images] returns for the same paths on a service holding
    the same pipeline, as long as the paths exist on disk.  In the
    dictionary returned the age-group counts add up to [total_faces]
    and the gender counts to at most [total_faces]. *)
Theorem process_directory_agrees_with_analyze_images (w : World) (disk : Disk)
    (p : ImagePipeline) (input_dir : string) :
  let image_paths := directory_images disk input_dir in
  (image_paths = [] → process_directory w disk p input_dir = None) ∧
  (image_paths ≠ [] →
     process_directory w disk p input_dir
     = Some (fold_batches new_aggregated
               (omap (directory_batch w p) image_paths))) ∧
  (image_paths ≠ [] →
     Forall (λ path, path_exists w path = true) image_paths →
     ∀ dev,
       process_directory w disk p input_dir
       = Some (aggregated
                 (analyze_images w {| device := dev; _pipeline := Some p |}
                    image_paths))) ∧
  (∀ r, process_directory w disk p input_dir = Some r →
     age_group_sum r = total_faces r ∧ (gender_sum r ≤ total_faces r)%nat).
Proof.
  intros image_paths.
  pose proof (process_directory_spec w disk p input_dir) as Hspec.
  fold image_paths in Hspec. clearbody image_paths.
  destruct image_paths as [|path paths].
  - split_and!; try done. intros r Hr. by rewrite Hspec in Hr.
  - split_and!; try done.
    + intros _ Hexist dev.
      by rewrite Hspec, analyze_images_spec, (omap_image_batch_exists _ _ _ _ Hexist).
    + intros r Hr.
      remember (omap (directory_batch w p) (path :: paths)) as batches eqn:Hb.
      assert (r = fold_batches new_aggregated batches) as -> by congruence.
      split.
      * apply aggregate_totals. rewrite Hb.
        apply directory_batches_age_recognized.
      * rewrite fold_batches_concat, total_faces_fold_faces,
          gender_sum_fold_faces by apply well_keyed_new.
        simpl. apply filter_length_le.
Qed.

Lemma process_directory_agrees_with_analyze_images_witness :
  process_directory Scenario.world Cases.disk Scenario.models "empty" = None ∧
  process_directory Scenario.world Cases.disk Scenario.models "photos"
  = Some (aggregated
            (analyze_images Scenario.world
               {| device := "cpu"; _pipeline := Some Scenario.models |}
               ["a.jpg"; "b.jpg"; "broken.jpg"])).
Proof.
  destruct (process_directory_agrees_with_analyze_images Scenario.world
              Cases.disk Scenario.models "empty") as (Hnone & _).
  destruct (process_directory_agrees_with_analyze_images Scenario.world
              Cases.disk Scenario.models "photos") as (_ & _ & Hsome & _).
  split.
  - by apply Hnone.
  - apply Hsome; [discriminate|repeat constructor].
Defined.

(** X21: [analyze_directory] raises when the pipeline cannot be built,
    with the text of the constructor's exception, where
    [analyze_images] in the same situation returns the zero dictionary;
    when the pipeline can be built it returns the result of
    [process_directory], and it leaves the service as one evaluation of
    [self.pipeline] does. *)
Theorem analyze_directory_raises_without_engine (w : World) (disk : Disk)
    (self : PipelineService) (directory_path : string) :
  (analyze_directory w disk self directory_path).1
    = match engine w self with
      | Ok p => Ok (process_directory w disk p directory_path)
      | Raise e => Raise e
      end ∧
  (analyze_directory w disk self directory_path).2 = (pipeline w self).2 ∧
  (∀ e, engine w self = Raise e →
     (analyze_directory w disk self directory_path).1 = Raise e ∧
     ∀ image_paths,
       aggregated (analyze_images w self image_paths) = new_aggregated).
Proof.
  assert (H1 : (analyze_directory w disk self directory_path).1
    = match engine w self with
      | Ok p => Ok (process_directory w disk p directory_path)
      | Raise e => Raise e
      end).
  { unfold analyze_directory.
    destruct (pipeline_engine w self) as [<- _].
    by destruct (pipeline w self) as [[p|e] self']. }
  split_and!; [done|..].
  - unfold analyze_directory. by destruct (pipeline w self) as [[p|e] self'].
  - intros e He. split; [by rewrite H1, He|].
    intros image_paths. rewrite analyze_images_spec, omap_all_None; [done|].
    apply Forall_forall. intros path _. unfold image_batch. rewrite He.
    by destruct (path_exists w path).
Qed.

Lemma analyze_directory_raises_without_engine_witness :
  let self := get_pipeline_service Scenario.empty_state in
  (analyze_directory Scenario.world_no_engine Cases.disk self "photos").1
    = Raise "model download failed" ∧
  aggregated (analyze_images Scenario.world_no_engine self ["a.jpg"])
    = new_aggregated.
Proof.
  intros self.
  destruct (analyze_directory_raises_without_engine Scenario.world_no_engine
              Cases.disk self "photos") as (_ & _ & H).
  destruct (H "model download failed" eq_refl) as [Hraise Hzero].
  exact (conj Hraise (Hzero ["a.jpg"])).
Defined.

(** ** Several directories *)

Lemma fold_faces_gender_lookup faces a k :
  gender_counts (fold_faces a faces) !! k
  = (λ n, n + gender_occurrences k faces) <$> gender_counts a !! k.
Proof.
  revert a; induction faces as [|f faces IH]; intros a.
  - unfold gender_occurrences. simpl.
    destruct (gender_counts a !! k); simpl; [f_equal; lia|done].
  - rewrite fold_faces_cons, IH. simpl. rewrite lookup_incr_if_present.
    unfold gender_occurrences. simpl.
    case_decide as Hk; case_bool_decide as Hb; try congruence;
      destruct (gender_counts a !! k); simpl; try done; f_equal; lia.
Qed.

Lemma fold_faces_age_group_lookup faces a k :
  age_group_counts (fold_faces a faces) !! k
  = (λ n, n + age_group_occurrences k faces) <$> age_group_counts a !! k.
Proof.
  revert a; induction faces as [|f faces IH]; intros a.
  - unfold age_group_occurrences. simpl.
    destruct (age_group_counts a !! k); simpl; [f_equal; lia|done].
  - rewrite fold_faces_cons, IH. simpl. rewrite lookup_incr_if_present.
    unfold age_group_occurrences. simpl.
    case_decide as Hk; case_bool_decide as Hb; try congruence;
      destruct (age_group_counts a !! k); simpl; try done; f_equal; lia.
Qed.

Lemma sum_for_cons k k0 c0 (items : list (string * nat)) :
  sum_for k ((k0, c0) :: items)
  = (if bool_decide (k0 = k) then c0 else 0) + sum_for k items.
Proof. unfold sum_for. simpl. by case_bool_decide. Qed.

Lemma add_count_list (items : list (string * nat)) (d : gmap string nat) :
  (∀ k c, (k, c) ∈ items → is_Some (d !! k)) →
  ∃ d', fold_left add_count items (Ok d) = Ok d' ∧
        ∀ k, d' !! k = (λ n, n + sum_for k items) <$> d !! k.
Proof.
  revert d; induction items as [|[k0 c0] items IH]; intros d Hkeys.
  - exists d. split; [done|]. intros k. unfold sum_for. simpl.
    destruct (d !! k); simpl; [f_equal; lia|done].
  - destruct (Hkeys k0 c0) as [n Hn]; [left|].
    destruct (IH (<[k0 := n + c0]> d)) as (d' & Hd' & Hlook).
    { intros k c Hin. rewrite lookup_insert_is_Some'. right.
      apply (Hkeys k c). by right. }
    exists d'. split.
    + assert (Hstep : add_count (Ok d) (k0, c0) = Ok (<[k0 := n + c0]> d))
        by (unfold add_count; simpl; by rewrite Hn).
      cbn [fold_left]. by rewrite Hstep.
    + intros k. rewrite Hlook, sum_for_cons.
      destruct (decide (k0 = k)) as [->|Hne].
      * rewrite lookup_insert_eq, Hn, bool_decide_eq_true_2 by done.
        simpl. f_equal. lia.
      * rewrite lookup_insert_ne, bool_decide_eq_false_2 by done. done.
Qed.

Lemma sum_for_absent k (items : list (string * nat)) :
  k ∉ items.*1 → sum_for k items = 0.
Proof.
  induction items as [|[k0 c0] items IH]; [done|].
  csimpl. rewrite not_elem_of_cons. intros [Hne Hnot].
  rewrite sum_for_cons, bool_decide_eq_false_2 by done. by apply IH.
Qed.

Lemma sum_for_present k c (items : list (string * nat)) :
  NoDup items.*1 → (k, c) ∈ items → sum_for k items = c.
Proof.
  induction items as [|[k0 c0] items IH]; csimpl; [by intros _ ?%elem_of_nil|].
  intros Hnd Hin. apply NoDup_cons in Hnd as [Hk0 Hnd]. rewrite sum_for_cons.
  apply elem_of_cons in Hin as [[= <- <-]|Hin].
  - rewrite bool_decide_eq_true_2 by done.
    rewrite (sum_for_absent _ _ Hk0). lia.
  - assert (k0 ≠ k).
    { intros ->. apply Hk0. by apply (list_elem_of_fmap_2 fst _ (k, c)). }
    rewrite bool_decide_eq_false_2 by done. by apply IH.
Qed.

Lemma sum_for_map_to_list k (counts : gmap string nat) :
  sum_for k (map_to_list counts) = default 0 (counts !! k).
Proof.
  destruct (counts !! k) as [c|] eqn:Hk; simpl.
  - apply sum_for_present; [apply NoDup_fst_map_to_list|].
    by apply elem_of_map_to_list.
  - apply sum_for_absent. intros Hin.
    apply list_elem_of_fmap in Hin as ([k' c] & -> & Hin).
    apply elem_of_map_to_list in Hin. simpl in Hk. congruence.
Qed.

Lemma add_counts_spec (d counts : gmap string nat) :
  (∀ k, is_Some (counts !! k) → is_Some (d !! k)) →
  ∃ d', add_counts d counts = Ok d' ∧
        ∀ k, d' !! k = (λ n, n + default 0 (counts !! k)) <$> d !! k.
Proof.
  intros Hkeys. unfold add_counts.
  destruct (add_count_list (map_to_list counts) d) as (d' & Hd' & Hlook).
  { intros k c Hin. apply Hkeys. apply elem_of_map_to_list in Hin. eauto. }
  exists d'. split; [done|]. intros k. by rewrite Hlook, sum_for_map_to_list.
Qed.

Lemma add_counts_gender a faces :
  well_keyed a →
  add_counts (gender_counts a) (gender_counts (fold_faces new_aggregated faces))
  = Ok (gender_counts (fold_faces a faces)).
Proof.
  intros Ha.
  pose proof (well_keyed_fold_faces faces _ well_keyed_new) as Hr.
  destruct (add_counts_spec (gender_counts a)
              (gender_counts (fold_faces new_aggregated faces)))
    as (d' & -> & Hlook).
  { intros k Hk. apply (proj1 Ha). by apply (proj1 Hr). }
  f_equal. apply map_eq. intros k.
  rewrite Hlook, !fold_faces_gender_lookup.
  destruct (gender_counts a !! k) as [n|] eqn:Hk; [|done].
  assert (Hin : k ∈ gender_keys) by (apply (proj1 Ha); by rewrite Hk).
  assert (Hz : gender_counts new_aggregated !! k = Some 0).
  { unfold gender_keys in Hin.
    repeat (apply elem_of_cons in Hin as [->|Hin]; [reflexivity|]).
    by apply elem_of_nil in Hin. }
  by rewrite Hz.
Qed.

Lemma add_counts_age_group a faces :
  well_keyed a →
  add_counts (age_group_counts a)
    (age_group_counts (fold_faces new_aggregated faces))
  = Ok (age_group_counts (fold_faces a faces)).
Proof.
  intros Ha.
  pose proof (well_keyed_fold_faces faces _ well_keyed_new) as Hr.
  destruct (add_counts_spec (age_group_counts a)
              (age_group_counts (fold_faces new_aggregated faces)))
    as (d' & -> & Hlook).
  { intros k Hk. apply (proj2 Ha). by apply (proj2 Hr). }
  f_equal. apply map_eq. intros k.
  rewrite Hlook, !fold_faces_age_group_lookup.
  destruct (age_group_counts a !! k) as [n|] eqn:Hk; [|done].
  assert (Hin : k ∈ age_group_keys) by (apply (proj2 Ha); by rewrite Hk).
  assert (Hz : age_group_counts new_aggregated !! k = Some 0).
  { unfold age_group_keys in Hin.
    repeat (apply elem_of_cons in Hin as [->|Hin]; [reflexivity|]).
    by apply elem_of_nil in Hin. }
  by rewrite Hz.
Qed.

Lemma run_step_spec w disk p a input_dir :
  well_keyed a →
  run_step w disk p (Ok a) input_dir
  = Ok (fold_batches a (run_batches w disk p input_dir)).
Proof.
  intros Ha. unfold run_step, run_batches. simpl.
  destruct (isdir disk (expanduser disk input_dir)); simpl; [|done].
  rewrite process_directory_spec.
  destruct (directory_images disk (expanduser disk input_dir)) as [|x l] eqn:Hi;
    [done|].
  remember (omap (directory_batch w p) (x :: l)) as batches eqn:Hb.
  rewrite !fold_batches_concat.
  rewrite (add_counts_gender _ _ Ha). simpl.
  rewrite (add_counts_age_group _ _ Ha). simpl.
  f_equal. rewrite !total_faces_fold_faces. simpl.
  destruct (fold_faces a (concat batches)) as [t g ag] eqn:Hf. simpl.
  f_equal.
  apply (f_equal total_faces) in Hf. rewrite total_faces_fold_faces in Hf.
  simpl in Hf. lia.
Qed.

Lemma well_keyed_fold_batches batches a :
  well_keyed a → well_keyed (fold_batches a batches).
Proof. intros Ha. rewrite fold_batches_concat. by apply well_keyed_fold_faces. Qed.

Lemma run_loop_spec w disk p (input_dirs : list string) a :
  well_keyed a →
  fold_left (run_step w disk p) input_dirs (Ok a)
  = Ok (fold_batches a (concat (run_batches w disk p <$> input_dirs))).
Proof.
  revert a; induction input_dirs as [|d input_dirs IH]; intros a Ha; [done|].
  cbn [fold_left]. rewrite (run_step_spec _ _ _ _ _ Ha).
  rewrite IH by by apply well_keyed_fold_batches.
  rewrite fmap_cons. cbn [concat]. unfold fold_batches. by rewrite fold_left_app.
Qed.

(** X22: [run] adds up its directories.  It returns the fold over the
    faces of all images, of all entries of [input_dirs] that are
    directories, that are processed without an exception, which is what
    merging the per-directory results gives; the merge never meets a
    missing key.  Entries that are not directories and directories
    without images add nothing.  When the result cannot be
    written [run] raises and the result is lost; when it can,
    the result does not depend on the order of the directories. *)
Theorem run_sums_directories (w : World) (disk : Disk) (p : ImagePipeline)
    (input_dirs : list string) (output_path : string) :
  let total :=
    fold_batches new_aggregated (concat (run_batches w disk p <$> input_dirs)) in
  run w disk p input_dirs output_path
    = match dump_result disk output_path total with
      | Ok _ => Ok total
      | Raise e => Raise e
      end ∧
  (∀ input_dirs' r,
     input_dirs ≡ₚ input_dirs' →
     run w disk p input_dirs output_path = Ok r →
     run w disk p input_dirs' output_path = Ok r).
Proof.
  intros total.
  assert (Hrun : ∀ dirs : list string, run w disk p dirs output_path
    = match dump_result disk output_path
              (fold_batches new_aggregated (concat (run_batches w disk p <$> dirs))) with
      | Ok _ =>
          Ok (fold_batches new_aggregated (concat (run_batches w disk p <$> dirs)))
      | Raise e => Raise e
      end).
  { intros dirs. unfold run. rewrite run_loop_spec by apply well_keyed_new.
    simpl. by destruct (dump_result disk output_path _). }
  split; [apply Hrun|].
  intros dirs' r Hp. rewrite !Hrun.
  assert (Heq : fold_batches new_aggregated (concat (run_batches w disk p <$> dirs'))
                = total).
  { subst total. rewrite !fold_batches_concat.
    apply fold_faces_permutation. by rewrite Hp. }
  by rewrite Heq.
Qed.

Lemma run_sums_directories_witness :
  ∃ r,
    run Scenario.world Cases.disk Scenario.models ["photos"; "nowhere"; "empty"]
      "out/result.json" = Ok r ∧
    run Scenario.world Cases.disk Scenario.models ["empty"; "photos"; "nowhere"]
      "out/result.json" = Ok r ∧
    total_faces r = 2 ∧
    run Scenario.world Cases.read_only_disk Scenario.models ["photos"]
      "out/result.json" = Raise "Permission denied".
Proof.
  eexists. split; [reflexivity|]. split; [|split; reflexivity].
  apply (proj2 (run_sums_directories Scenario.world Cases.disk Scenario.models
                  ["photos"; "nowhere"; "empty"] "out/result.json")).
  - exact (Permutation_app_comm ["photos"; "nowhere"] ["empty"]).
  - reflexivity.
Defined.

(** ** Faces of one image *)

Lemma classify_faces_labels w p img faces results :
  classify_faces w p img faces = Ok results →
  Forall2 (λ r d,
      bbox r = det_bbox d ∧ confidence r = det_confidence d ∧
      ∃ face_crop age_label,
        Image_crop w img (det_bbox d) = Ok face_crop ∧
        classify_gender p face_crop = Ok (gender r) ∧
        age_id2label p face_crop = Ok age_label ∧
        age_group r = _map_age_to_group age_label)
    results (List.filter (crop_large_enough w img) faces).
Proof.
  revert results; induction faces as [|d faces IH]; intros results; simpl.
  - intros [= <-]. constructor.
  - unfold crop_large_enough at 1.
    destruct (Image_crop w img (det_bbox d)) as [c|] eqn:Hc; simpl; [|done].
    destruct (too_small c); simpl; [apply IH|].
    destruct (classify_gender p c) as [g|] eqn:Hg; simpl; [|done].
    unfold classify_age.
    destruct (age_id2label p c) as [lbl|] eqn:Hl; simpl; [|done].
    destruct (classify_faces w p img faces) as [rs|]; simpl; [|done].
    intros [= <-]. constructor; [|by apply IH].
    simpl. split_and!; try done. by exists c, lbl.
Qed.

(** X23: every record returned by [process_image] is the classification
    of a detection: the records match, one to one and in order, the
    detections whose crop is at least 10 by 10, each record carrying
    the box and confidence of its detection, the label the gender
    model gives for the crop, and the age group to which
    [_map_age_to_group] sends the label the age model gives for the
    crop. *)
Theorem process_image_classifies_detections (w : World) (p : ImagePipeline)
    (image_path : string) (faces : list Detection) (original_image : Image)
    (results : list Face) :
  detect_faces p image_path = Ok faces →
  (faces ≠ [] → Image_open w image_path = Ok original_image) →
  process_image w p image_path = Ok results →
  Forall2 (λ r d,
      bbox r = det_bbox d ∧ confidence r = det_confidence d ∧
      ∃ face_crop age_label,
        Image_crop w original_image (det_bbox d) = Ok face_crop ∧
        classify_gender p face_crop = Ok (gender r) ∧
        age_id2label p face_crop = Ok age_label ∧
        age_group r = _map_age_to_group age_label)
    results (List.filter (crop_large_enough w original_image) faces).
Proof.
  intros Hd Hopen Hp. unfold process_image in Hp. rewrite Hd in Hp. simpl in Hp.
  destruct faces as [|d faces]; [injection Hp as <-; constructor|].
  rewrite Hopen in Hp by done.
  exact (classify_faces_labels w p original_image (d :: faces) results Hp).
Qed.

Lemma process_image_classifies_detections_witness :
  let original_image := {| width := 640; height := 480; pixels := "a.jpg" |} in
  let faces :=
    [ {| det_bbox := (0, 0, 50, 60)%Z; det_confidence := 9 # 10 |};
      {| det_bbox := (100, 100, 105, 140)%Z; det_confidence := 1 # 2 |} ] in
  Forall2 (λ r d,
      bbox r = det_bbox d ∧ confidence r = det_confidence d ∧
      ∃ face_crop age_label,
        Image_crop Scenario.world original_image (det_bbox d) = Ok face_crop ∧
        classify_gender Scenario.models face_crop = Ok (gender r) ∧
        age_id2label Scenario.models face_crop = Ok age_label ∧
        age_group r = _map_age_to_group age_label)
    [ {| bbox := (0, 0, 50, 60)%Z; confidence := 9 # 10;
         gender := "Male"; age_group := "20s" |} ]
    (List.filter (crop_large_enough Scenario.world original_image) faces).
Proof.
  intros original_image faces.
  exact (process_image_classifies_detections Scenario.world Scenario.models
           "a.jpg" faces original_image _ eq_refl (λ _, eq_refl) eq_refl).
Defined.

Lemma classify_faces_returns w p img faces :
  (∃ results, classify_faces w p img faces = Ok results)
  ↔ Forall (λ d, face_raises w p img d = false) faces.
Proof.
  induction faces as [|d faces IH]; simpl.
  - split; [constructor|by eexists].
  - rewrite Forall_cons, <- IH. unfold face_raises, classify_age.
    destruct (Image_crop w img (det_bbox d)) as [c|]; simpl;
      [|split; [by intros [? ?]|by intros [? _]]].
    destruct (too_small c); [split; [by intros H; split|by intros [_ H]]|].
    destruct (classify_gender p c) as [g|]; simpl;
      [|split; [by intros [? ?]|by intros [? _]]].
    destruct (age_id2label p c) as [lbl|]; simpl;
      [|split; [by intros [? ?]|by intros [? _]]].
    destruct (classify_faces w p img faces) as [rs|]; simpl.
    + split; [intros _; split; [done|by eexists]|intros _; by eexists].
    + split; [by intros [? ?]|by intros [_ [? ?]]].
Qed.

(** X24: an image is taken whole or not at all.  Once the faces are
    detected and the image is opened, [process_image] returns exactly
    when no detection raises, that is when every crop succeeds and both
    classifiers succeed on every crop of at least 10 by 10.  A single
    detection that raises makes [process_image] raise, and the image
    then adds nothing to the dictionary of [analyze_images], whatever
    its other faces. *)
Theorem failing_face_discards_image (w : World) (p : ImagePipeline)
    (image_path : string) (faces : list Detection) (original_image : Image) :
  detect_faces p image_path = Ok faces →
  Image_open w image_path = Ok original_image →
  ((∃ results, process_image w p image_path = Ok results)
   ↔ Forall (λ d, face_raises w p original_image d = false) faces) ∧
  (∀ d, d ∈ faces → face_raises w p original_image d = true →
     (∃ e, process_image w p image_path = Raise e) ∧
     ∀ self l, engine w self = Ok p → service l = self →
       aggregated (analyze_step w l image_path) = aggregated l).
Proof.
  intros Hd Hopen.
  assert (Hiff : (∃ results, process_image w p image_path = Ok results)
                 ↔ Forall (λ d, face_raises w p original_image d = false) faces).
  { unfold process_image. rewrite Hd. simpl.
    destruct faces as [|d faces]; [split; [constructor|by eexists]|].
    rewrite Hopen. simpl.
    exact (classify_faces_returns w p original_image (d :: faces)). }
  split; [done|].
  intros d Hin Hraise.
  assert (Hr : ∃ e, process_image w p image_path = Raise e).
  { destruct (process_image w p image_path) as [rs|e] eqn:Hp; [|by eexists].
    exfalso. assert (Hall : Forall (λ d, face_raises w p original_image d = false) faces)
      by (apply Hiff; by eexists).
    rewrite Forall_forall in Hall. specialize (Hall d Hin). congruence. }
  split; [done|].
  intros self l He <-. destruct Hr as [e Hp].
  destruct (analyze_step_spec w l image_path) as [-> _].
  unfold image_batch. rewrite He, Hp. by destruct (path_exists w image_path).
Qed.

Lemma failing_face_discards_image_witness :
  (∃ e, process_image Scenario.world Cases.moody_models "group.jpg" = Raise e) ∧
  aggregated (analyze_images Scenario.world
                {| device := "cpu"; _pipeline := Some Cases.moody_models |}
                ["group.jpg"]) = new_aggregated.
Proof.
  destruct (failing_face_discards_image Scenario.world Cases.moody_models
              "group.jpg" _ {| width := 640; height := 480; pixels := "group.jpg" |}
              eq_refl eq_refl) as [_ H].
  destruct (H {| det_bbox := (10, 10, 40, 40)%Z; det_confidence := 4 # 5 |})
    as [Hr Hstep]; [repeat constructor|reflexivity|].
  split; [done|].
  exact (Hstep {| device := "cpu"; _pipeline := Some Cases.moody_models |}
           {| aggregated := new_aggregated;
              service := {| device := "cpu"; _pipeline := Some Cases.moody_models |};
              calls := [] |} eq_refl eq_refl).
Defined.
